(** * LSB steganography codec of [steg_module.js]

    A shallow embedding of [StegModule.prototype.hide] and
    [StegModule.prototype.unhide], with the JavaScript string and number
    conversions they go through, followed by the properties of the codec. *)

From Stdlib Require Import ZArith Zquot String Ascii Lia.
From stdpp Require Import base list.

Local Open Scope Z_scope.

(** * The program *)

(** ** JavaScript values *)

(** A JavaScript string is a sequence of UTF-16 code units. *)
Abbreviation jsstring := (list Z).

(** A string literal. *)
Fixpoint lit (s : string) : jsstring :=
  match s with
  | EmptyString => []
  | String a s' => Z.of_N (N_of_ascii a) :: lit s'
  end.

(** The one-character string ['\0']. *)
Definition NUL : jsstring := [0].

(** The numbers the codec meets are integers and [NaN]. *)
Inductive jsnum :=
  | Num (z : Z)
  | NaN.

(** [x % 2 === 0] for an array element; a read past the end of the array is
    [undefined], [undefined % 2] is [NaN], and [NaN === 0] is false. *)
Definition isEven (x : option Z) : bool :=
  match x with
  | Some p => Z.rem p 2 =? 0
  | None => false
  end.

(** [x | y] and [x & y]; the operand [undefined] converts to 0. *)
Definition jsOr (x : option Z) (y : Z) : Z := Z.lor (default 0 x) y.
Definition jsAnd (x : option Z) (y : Z) : Z := Z.land (default 0 x) y.

(** Digits of [Number.prototype.toString(radix)]: ['0'..'9'], ['a'..'z']. *)
Definition digitChar (d : Z) : Z := if d <? 10 then 48 + d else 87 + d.

(** The digits of [z >= 0], most significant first, in front of [acc]; a
    fuel of one more than the binary logarithm of [z] is enough for every
    radix. *)
Fixpoint digitsOf (fuel : nat) (radix z : Z) (acc : jsstring) : jsstring :=
  match fuel with
  | O => acc
  | S f =>
      let acc' := digitChar (z mod radix) :: acc in
      if z / radix =? 0 then acc' else digitsOf f radix (z / radix) acc'
  end.

(** [n.toString(radix)]. *)
Definition toString (n : jsnum) (radix : Z) : jsstring :=
  match n with
  | NaN => lit "NaN"
  | Num z =>
      if z <? 0
      then 45 :: digitsOf (S (Z.to_nat (Z.log2 (- z)))) radix (- z) []
      else digitsOf (S (Z.to_nat (Z.log2 z))) radix z []
  end.

(** The value of a digit character, in either case. *)
Definition digitVal (c : Z) : option Z :=
  if (48 <=? c) && (c <=? 57) then Some (c - 48)
  else if (97 <=? c) && (c <=? 122) then Some (c - 87)
  else if (65 <=? c) && (c <=? 90) then Some (c - 55)
  else None.

(** The longest prefix of [s] made of digits of the radix; [acc] is [None]
    until a digit has been read. *)
Fixpoint parseDigits (radix : Z) (s : jsstring) (acc : option Z) : option Z :=
  match s with
  | [] => acc
  | c :: s' =>
      match digitVal c with
      | Some d =>
          if d <? radix
          then parseDigits radix s' (Some (default 0 acc * radix + d))
          else acc
      | None => acc
      end
  end.

(** [parseInt(s, radix)].  Every string the codec parses is either made of
    digits or is ["NaN"]: none starts with white space, a sign or ["0x"],
    so those parts of [parseInt] are left out. *)
Definition parseInt (s : jsstring) (radix : Z) : jsnum :=
  match parseDigits radix s None with
  | Some z => Num z
  | None => NaN
  end.

(** [s.charCodeAt(i)]: [NaN] when [i] is out of range. *)
Definition charCodeAt (s : jsstring) (i : nat) : jsnum :=
  match s !! i with
  | Some c => Num c
  | None => NaN
  end.

(** [String.fromCharCode(n)]: the argument is converted to a 16-bit
    unsigned integer, [NaN] to 0. *)
Definition fromCharCode (n : jsnum) : jsstring :=
  match n with
  | Num z => [z mod 65536]
  | NaN => [0]
  end.

(** [s.substr(k, len)] for [k >= 0], and [s.substr(-n)]. *)
Definition substr (s : jsstring) (k len : nat) : jsstring := take len (drop k s).
Definition substrLast (s : jsstring) (n : nat) : jsstring :=
  drop (length s - n) s.

(** ** Images *)

(** Modelled from the spec: the [Ppm] class of [./ppm] is not part of the
    sources.  An image carries its meta-information (header, comments,
    resolution, colour depth) and owns a pixel buffer, a fixed-length array
    of unsigned 8-bit integers: a read past its end gives [undefined] and a
    write past its end is dropped.  Buffers live in a store and an image
    refers to its buffer by location, so that sharing between images is
    visible. *)
Record Ppm := mkPpm {
  header : jsstring;
  comments : list jsstring;
  resolution : Z * Z;
  colorDepth : Z;
  pixelBytes : nat
}.

(** The store: the pixel buffers allocated so far, by location. *)
Abbreviation heap := (list (list Z)).

(** The buffer at a location. *)
Definition deref (h : heap) (l : nat) : list Z := default [] (h !! l).

(** Modelled from the spec: [new Ppm(ppm)], the copy constructor of the
    absent [Ppm] class, duplicates the meta-information and copies the pixel
    buffer into a newly allocated one. *)
Definition Ppm_copy (p : Ppm) (h : heap) : Ppm * heap :=
  (mkPpm (header p) (comments p) (resolution p) (colorDepth p) (length h),
   h ++ [deref h (pixelBytes p)]).

(** [function StegModule(id, ppm)]. *)
Record StegModule := mkStegModule {
  id : Z;
  ppm : Ppm
}.

Definition STEG_MAGIC : jsstring := lit "stg".

(** ** Reading a character out of the least-significant bits *)

(** The inner [for (let j=0; j<8; j++)] loop of both functions: [n] rounds
    left, each appending ["0"] or ["1"] and advancing [counter]. *)
Fixpoint readBits (n : nat) (pb : list Z) (counter : nat) (binaryNum : jsstring)
  : nat * jsstring :=
  match n with
  | O => (counter, binaryNum)
  | S n' =>
      let binaryNum' :=
        if isEven (pb !! counter)
        then binaryNum ++ lit "0"
        else binaryNum ++ lit "1" in
      readBits n' pb (S counter) binaryNum'
  end.

(** [for (var k = 0; k < hexa.length; k += 2)
      chAscii += String.fromCharCode(parseInt(hexa.substr(k, 2), 16));] *)
Fixpoint hexToAscii (fuel : nat) (hexa : jsstring) (k : nat) (chAscii : jsstring)
  : jsstring :=
  match fuel with
  | O => chAscii
  | S f =>
      if (k <? length hexa)%nat
      then hexToAscii f hexa (k + 2)
             (chAscii ++ fromCharCode (parseInt (substr hexa k 2) 16))
      else chAscii
  end.

(** One round of the reading loops, up to [chAscii]; [hexa.toString()]
    gives [hexa] back. *)
Definition readChar (pb : list Z) (counter : nat) : nat * jsstring :=
  let '(counter', binaryNum) := readBits 8 pb counter [] in
  let hexa := toString (parseInt binaryNum 2) 16 in
  (counter', hexToAscii (length hexa) hexa 0 []).

(** ** hide *)

(** [for(let i=0; i<3; i++)], the "stg control" loop, with [n] rounds left. *)
Fixpoint stgControl (n : nat) (pb : list Z) (counter : nat) (message : jsstring)
  : nat * jsstring :=
  match n with
  | O => (counter, message)
  | S n' =>
      let '(counter', chAscii) := readChar pb counter in
      stgControl n' pb counter' (message ++ chAscii)
  end.

(** [("00000000" + parseInt(msg.charCodeAt(i).toString(16), 16).toString(2))
      .substr(-8)] *)
Definition binOfCh (msg : jsstring) (i : nat) : jsstring :=
  let hexOfCh := toString (charCodeAt msg i) 16 in
  substrLast (lit "00000000" ++ toString (parseInt hexOfCh 16) 2) 8.

(** The body of the inner writing loop, without [count++].  Past the end of
    the buffer the element is [undefined], which is not even and converts
    to 0 under [&]; the assignment to an index past the end is dropped,
    which is what the update of a list does there. *)
Definition hideBit (bin : jsstring) (j count : nat) (pb : list Z) : list Z :=
  if isEven (pb !! count)
  then
    if bool_decide (bin !! j = Some 49)
    then <[count := jsOr (pb !! count) 1]> pb
    else pb
  else
    if bool_decide (bin !! j = Some 48)
    then <[count := jsAnd (pb !! count) (Z.shiftl (Z.shiftl 1 8 - 1) 1)]> pb
    else pb.

(** [for(let j=0; j<8; j++)] of the writing loop, [n] rounds left. *)
Fixpoint hideBits (n : nat) (bin : jsstring) (j count : nat) (pb : list Z)
  : nat * list Z :=
  match n with
  | O => (count, pb)
  | S n' => hideBits n' bin (S j) (S count) (hideBit bin j count pb)
  end.

(** [while (i < msg.length + 4)], [n] rounds left. *)
Fixpoint hideLoop (n : nat) (msg : jsstring) (i count : nat) (pb : list Z)
  : nat * list Z :=
  match n with
  | O => (count, pb)
  | S n' =>
      let '(count', pb') := hideBits 8 (binOfCh msg i) 0 count pb in
      hideLoop n' msg (S i) count' pb'
  end.

(** The object [hide] returns: [{ error: ... }] or [{ ppm: ppmOut }]. *)
Inductive hideResult :=
  | HideError (error : jsstring)
  | HidePpm (ppmOut : Ppm).

(** [StegModule.prototype.hide], from the store before the call to the
    result and the store after it.  The test
    [msg.length > ppmOut.pixelBytes.length] is written with [<?]; the error
    texts are appended to the empty string, as in the source. *)
Definition hide (this : StegModule) (msg : jsstring) (h : heap)
  : hideResult * heap :=
  let '(ppmOut, h) := Ppm_copy (ppm this) h in
  let msg := STEG_MAGIC ++ msg ++ NUL in
  let pb := deref h (pixelBytes ppmOut) in
  if (length pb <? length msg)%nat
  then (HideError ([] ++ lit "STEG_TOO_BIG error!"), h)
  else
    let '(counter, message) := stgControl 3 pb 0 [] in
    if bool_decide (message = STEG_MAGIC)
    then (HideError ([] ++ lit "STEG_MSG: image already contains a hidden message!"), h)
    else
      let '(count, pb') := hideLoop (length msg + 4) msg 0 0 pb in
      (HidePpm ppmOut, <[pixelBytes ppmOut := pb']> h).

(** ** unhide *)

(** [while (i < this.ppm.pixelBytes.length && ch !== '\0')] with [n] rounds
    left before [i] reaches the length; [ch] is [None] while it is still
    [undefined] (its [var] declaration is hoisted). *)
Fixpoint unhideLoop (n : nat) (pb : list Z) (i counter : nat)
    (message : jsstring) (ch : option jsstring)
  : jsstring * option jsstring :=
  match n with
  | O => (message, ch)
  | S n' =>
      if bool_decide (ch ≠ Some NUL)
      then
        let '(counter', chAscii) := readChar pb counter in
        unhideLoop n' pb (S i) counter' (message ++ chAscii) (Some chAscii)
      else (message, ch)
  end.

(** [for(var l = 3; l<message.length; l++) hiddenMessage += message[l];] *)
Fixpoint copyFrom (n : nat) (message : jsstring) (l : nat) (hiddenMessage : jsstring)
  : jsstring :=
  match n with
  | O => hiddenMessage
  | S n' =>
      let c := match message !! l with
               | Some c => [c]
               | None => lit "undefined"
               end in
      copyFrom n' message (S l) (hiddenMessage ++ c)
  end.

(** The object [unhide] returns: [{ error: ... }] or [{ msg: ... }]. *)
Inductive unhideResult :=
  | UnhideError (error : jsstring)
  | UnhideMsg (msg : jsstring).

(** [StegModule.prototype.unhide]; it reads the store and leaves it as it
    is. *)
Definition unhide (this : StegModule) (h : heap) : unhideResult :=
  let pb := deref h (pixelBytes (ppm this)) in
  let '(message, ch) := unhideLoop (length pb) pb 0 0 [] None in
  if bool_decide (ch ≠ Some NUL)
  then UnhideError ([] ++ lit "STEG_BAD_MSG: bad message!")
  else
    if bool_decide (message !! 0%nat = Some 115)
       && bool_decide (message !! 1%nat = Some 116)
       && bool_decide (message !! 2%nat = Some 103)
    then UnhideMsg (copyFrom (length message - 3) message 3 [])
    else UnhideError ([] ++ lit "STEG_NO_MSG: image does not have a message!").

(** * The vocabulary of the properties *)

(** The message [hide] embeds: [STEG_MAGIC + msg + '\0']. *)
Definition framed (msg : jsstring) : jsstring := STEG_MAGIC ++ msg ++ NUL.

(** [s] begins with [prefix]. *)
Definition startsWith (prefix s : jsstring) : Prop :=
  take (length prefix) s = prefix.

#[global] Instance startsWith_dec prefix s : Decision (startsWith prefix s).
Proof. unfold startsWith. apply _. Defined.

(** The result is an error whose text begins with the token [kind]. *)
Definition hideFailsWith (kind : jsstring) (r : hideResult) : Prop :=
  match r with
  | HideError error => startsWith kind error
  | HidePpm _ => False
  end.

(** The same for a result of [unhide]. *)
Definition unhideFailsWith (kind : jsstring) (r : unhideResult) : Prop :=
  match r with
  | UnhideError error => startsWith kind error
  | UnhideMsg _ => False
  end.

(** The least-significant bit of a pixel byte: 1 if the byte is odd, 0 if
    it is even. *)
Definition lsb (p : Z) : Z := if Z.odd p then 1 else 0.

(** The read bit-mapping in the words of the specification: payload byte [k]
    is made of the eight consecutive pixel bytes from [8 * k] on, the
    least-significant bit of each taken MSB-first.  There is no payload
    byte [k] when the buffer does not hold all eight pixel bytes. *)
Definition payloadByte (pb : list Z) (k : nat) : option Z :=
  match take 8 (drop (8 * k) pb) with
  | [p0; p1; p2; p3; p4; p5; p6; p7] =>
      Some (128 * lsb p0 + 64 * lsb p1 + 32 * lsb p2 + 16 * lsb p3
            + 8 * lsb p4 + 4 * lsb p5 + 2 * lsb p6 + lsb p7)
  | _ => None
  end.

(** The payload bytes before index [n], as far as the buffer holds them. *)
Definition payload (pb : list Z) (n : nat) : list Z :=
  omap (payloadByte pb) (seq 0 n).

(** ** Functions the proofs go through *)

(** The bit the reading loops append for the array element [x]. *)
Definition lsbBit (x : option Z) : Z := if isEven x then 0 else 1.

(** The value spelled MSB-first by the eight bits read from [counter] on. *)
Definition groupValue (pb : list Z) (counter : nat) : Z :=
  128 * lsbBit (pb !! counter) + 64 * lsbBit (pb !! (counter + 1)%nat)
  + 32 * lsbBit (pb !! (counter + 2)%nat) + 16 * lsbBit (pb !! (counter + 3)%nat)
  + 8 * lsbBit (pb !! (counter + 4)%nat) + 4 * lsbBit (pb !! (counter + 5)%nat)
  + 2 * lsbBit (pb !! (counter + 6)%nat) + lsbBit (pb !! (counter + 7)%nat).

(** The characters the reading loop of [unhide] decodes in rounds
    [i .. i+n-1]. *)
Definition groups (pb : list Z) (i n : nat) : list Z :=
  map (λ k, groupValue pb (8 * k)) (seq i n).

(** The loop of [unhide] seen on the list of decoded characters. *)
Fixpoint scan (bs : list Z) (message : jsstring) (ch : option jsstring)
  : jsstring * option jsstring :=
  match bs with
  | [] => (message, ch)
  | b :: bs' =>
      if bool_decide (ch ≠ Some NUL)
      then scan bs' (message ++ [b]) (Some [b])
      else (message, ch)
  end.

(** What one round of the inner writing loop does to the pixel byte [p] it
    visits, given the character [c] of [binOfCh] it looks at. *)
Definition writeBit (c : option Z) (p : Z) : Z :=
  if Z.even p
  then if bool_decide (c = Some 49) then Z.lor p 1 else p
  else if bool_decide (c = Some 48) then Z.land p 510 else p.

(** [binOfCh] of a character with code [c]. *)
Definition binOfCode (c : Z) : jsstring :=
  substrLast (lit "00000000" ++ toString (parseInt (toString (Num c) 16) 16) 2) 8.

(** The character ['1'] or ['0'] for a bit. *)
Definition bitChar (b : bool) : Z := if b then 49 else 48.

(** Bits 7 to 0 of [c] as ['0'] and ['1'], MSB-first. *)
Definition bits8 (c : Z) : jsstring :=
  map (λ i, bitChar (Z.testbit c i)) [7; 6; 5; 4; 3; 2; 1; 0].

(** ** Concrete images *)

(** An 8 x 8 image with 192 pixel bytes, all [v], alone in the store. *)
Definition plainImage : Ppm := mkPpm (lit "P6") [] (8, 8) 255 0.
Definition plainModule : StegModule := mkStegModule 1 plainImage.
Definition plainStore (v : Z) : heap := [replicate 192 v].

(** A 3 x 1 image with 9 pixel bytes. *)
Definition tinyImage : Ppm := mkPpm (lit "P6") [] (3, 1) 255 0.
Definition tinyModule : StegModule := mkStegModule 1 tinyImage.
Definition tinyStore : heap := [replicate 9 0].

(** An image without pixel bytes. *)
Definition emptyImage : Ppm := mkPpm (lit "P6") [] (0, 0) 255 0.
Definition emptyModule : StegModule := mkStegModule 1 emptyImage.
Definition emptyStore : heap := [[]].

(** A 7 x 1 image whose 21 pixel bytes spell ["st"] and the first five bits
    of ["g"] in their least-significant bits. *)
Definition shortImage : Ppm := mkPpm (lit "P6") [] (7, 1) 255 0.
Definition shortModule : StegModule := mkStegModule 1 shortImage.
Definition shortStore : heap :=
  [[0; 1; 1; 1; 0; 0; 1; 1; 0; 1; 1; 1; 0; 1; 0; 0; 0; 1; 1; 0; 0]].

(** * Properties *)

(** ** The number and string conversions *)

Lemma digitVal_digitChar d : 0 ≤ d < 36 → digitVal (digitChar d) = Some d.
Proof.
  intros Hd. unfold digitChar, digitVal.
  destruct (d <? 10) eqn:H10; [apply Z.ltb_lt in H10 | apply Z.ltb_ge in H10].
  - rewrite (proj2 (Z.leb_le 48 (48 + d))), (proj2 (Z.leb_le (48 + d) 57)) by lia.
    cbn. f_equal. lia.
  - rewrite (proj2 (Z.leb_gt (87 + d) 57)) by lia. rewrite andb_false_r.
    rewrite (proj2 (Z.leb_le 97 (87 + d))), (proj2 (Z.leb_le (87 + d) 122)) by lia.
    cbn. f_equal. lia.
Qed.

Lemma digitsOf_S fuel radix z acc :
  digitsOf (S fuel) radix z acc =
    if z / radix =? 0 then digitChar (z mod radix) :: acc
    else digitsOf fuel radix (z / radix) (digitChar (z mod radix) :: acc).
Proof. reflexivity. Qed.

(** Reading back the digits [toString] wrote gives the number. *)
Lemma parseDigits_digitsOf radix fuel z acc :
  2 ≤ radix ≤ 36 → 0 ≤ z < radix ^ Z.of_nat (S fuel) →
  parseDigits radix (digitsOf (S fuel) radix z acc) None
  = parseDigits radix acc (Some z).
Proof.
  intros Hr. revert z acc. induction fuel as [|fuel IH]; intros z acc Hz.
  - rewrite digitsOf_S. change (Z.of_nat 1) with 1 in Hz. rewrite Z.pow_1_r in Hz.
    rewrite Z.div_small, Z.mod_small by lia. cbn [Z.eqb parseDigits].
    rewrite digitVal_digitChar by lia.
    rewrite (proj2 (Z.ltb_lt z radix)) by lia. cbn. done.
  - rewrite digitsOf_S. destruct (z / radix =? 0) eqn:Hq.
    + apply Z.eqb_eq in Hq. cbn [parseDigits].
      rewrite digitVal_digitChar by (pose proof (Z.mod_pos_bound z radix); lia).
      rewrite (proj2 (Z.ltb_lt _ radix)) by (apply Z.mod_pos_bound; lia).
      cbn [default]. do 2 f_equal.
      pose proof (Z.div_mod z radix) as Hdm. rewrite Hq in Hdm. lia.
    + apply Z.eqb_neq in Hq.
      rewrite IH.
      * cbn [parseDigits].
        rewrite digitVal_digitChar by (pose proof (Z.mod_pos_bound z radix); lia).
        rewrite (proj2 (Z.ltb_lt _ radix)) by (apply Z.mod_pos_bound; lia).
        cbn [default]. do 2 f_equal.
        rewrite Z.mul_comm. symmetry. apply Z.div_mod. lia.
      * split; [apply Z.div_pos; lia|].
        apply Z.div_lt_upper_bound; [lia|].
        rewrite <- Z.pow_succ_r by lia. rewrite <- Nat2Z.inj_succ. lia.
Qed.

Lemma fuel_enough radix z :
  2 ≤ radix → 0 ≤ z → z < radix ^ Z.of_nat (S (Z.to_nat (Z.log2 z))).
Proof.
  intros Hr Hz. rewrite Nat2Z.inj_succ, Z2Nat.id by apply Z.log2_nonneg.
  destruct (decide (z = 0)) as [->|Hne]; [cbn; lia|].
  pose proof (Z.log2_spec z ltac:(lia)) as [_ Hlt].
  eapply Z.lt_le_trans; [exact Hlt|].
  apply Z.pow_le_mono_l. pose proof (Z.log2_nonneg z). lia.
Qed.

Lemma parseInt_toString radix z :
  2 ≤ radix ≤ 36 → 0 ≤ z → parseInt (toString (Num z) radix) radix = Num z.
Proof.
  intros Hr Hz. unfold parseInt, toString.
  rewrite (proj2 (Z.ltb_ge z 0)) by lia.
  rewrite parseDigits_digitsOf; [done | done |].
  split; [done | apply fuel_enough; lia].
Qed.

Lemma digitChar_bit z : digitChar (z mod 2) = bitChar (Z.testbit z 0).
Proof.
  rewrite <- Z.bit0_mod. by destruct (Z.testbit z 0).
Qed.

(** The binary digits [toString] writes are the bits of the number, the
    last digit being bit 0. *)
Lemma digitsOf_2_bits fuel z acc :
  0 ≤ z < 2 ^ Z.of_nat (S fuel) →
  ∃ pre, digitsOf (S fuel) 2 z acc = pre ++ acc
    ∧ z < 2 ^ Z.of_nat (length pre)
    ∧ ∀ i, (i < length pre)%nat →
        pre !! (length pre - S i)%nat = Some (bitChar (Z.testbit z (Z.of_nat i))).
Proof.
  revert z acc. induction fuel as [|fuel IH]; intros z acc Hz;
    rewrite digitsOf_S, digitChar_bit.
  - change (Z.of_nat 1) with 1 in Hz. rewrite Z.pow_1_r in Hz.
    rewrite Z.div_small by lia. cbn [Z.eqb].
    exists [bitChar (Z.testbit z 0)]. split; [done|]. split; [cbn; lia|].
    intros i Hi. cbn in Hi. by replace i with 0%nat by lia.
  - assert (Hbits : ∀ pre, z / 2 < 2 ^ Z.of_nat (length pre) →
        (∀ i, (i < length pre)%nat →
           pre !! (length pre - S i)%nat
           = Some (bitChar (Z.testbit (z / 2) (Z.of_nat i)))) →
        z < 2 ^ Z.of_nat (length (pre ++ [bitChar (Z.testbit z 0)]))
        ∧ ∀ i, (i < length (pre ++ [bitChar (Z.testbit z 0)]))%nat →
           (pre ++ [bitChar (Z.testbit z 0)])
             !! (length (pre ++ [bitChar (Z.testbit z 0)]) - S i)%nat
           = Some (bitChar (Z.testbit z (Z.of_nat i)))).
    { intros pre Hlt Hpre. rewrite length_app. cbn [length]. split.
      - replace (Z.of_nat (length pre + 1)) with (Z.succ (Z.of_nat (length pre))) by lia.
        rewrite Z.pow_succ_r by lia.
        pose proof (Z.div_mod z 2). pose proof (Z.mod_pos_bound z 2). lia.
      - intros [|i] Hi.
        + replace (length pre + 1 - 1)%nat with (length pre) by lia.
          by rewrite list_lookup_middle.
        + rewrite lookup_app_l by lia.
          replace (length pre + 1 - S (S i))%nat with (length pre - S i)%nat by lia.
          rewrite Hpre by lia. rewrite Z.div2_bits by lia.
          by rewrite Nat2Z.inj_succ. }
    destruct (z / 2 =? 0) eqn:Hq.
    + apply Z.eqb_eq in Hq. exists ([] ++ [bitChar (Z.testbit z 0)]).
      split; [done|]. apply Hbits; [rewrite Hq; cbn; lia|]. intros i Hi. cbn in Hi. lia.
    + apply Z.eqb_neq in Hq.
      destruct (IH (z / 2) (bitChar (Z.testbit z 0) :: acc)) as (pre & Hpre & Hlt & Hlk).
      { split; [apply Z.div_pos; lia|]. apply Z.div_lt_upper_bound; [lia|].
        rewrite <- Z.pow_succ_r by lia. rewrite <- Nat2Z.inj_succ. lia. }
      exists (pre ++ [bitChar (Z.testbit z 0)]). rewrite Hpre.
      split; [by rewrite <- (assoc_L (++))|]. by apply Hbits.
Qed.

Lemma testbit_high z n i : 0 ≤ z < 2 ^ n → 0 ≤ n ≤ i → Z.testbit z i = false.
Proof.
  intros Hz Hn. rewrite <- (Z.mod_small z (2 ^ n)) by done.
  apply Z.mod_pow2_bits_high. lia.
Qed.

(** The conversions of the writing loop, through hexadecimal and binary
    text, give the low eight bits of the character code. *)
Lemma binOfCode_bits8 c : 0 ≤ c → binOfCode c = bits8 c.
Proof.
  intros Hc. unfold binOfCode. rewrite parseInt_toString by lia.
  unfold toString. rewrite (proj2 (Z.ltb_ge c 0)) by lia.
  destruct (digitsOf_2_bits (Z.to_nat (Z.log2 c)) c [])
    as (pre & -> & Hlt & Hlk); [split; [done | apply fuel_enough; lia]|].
  rewrite app_nil_r. unfold substrLast. rewrite length_app.
  change (length (lit "00000000")) with 8%nat.
  replace (8 + length pre - 8)%nat with (length pre) by lia.
  assert (Hbit : ∀ i, (i < 8)%nat →
    drop (length pre) (lit "00000000" ++ pre) !! (7 - i)%nat
    = Some (bitChar (Z.testbit c (Z.of_nat i)))).
  { intros i Hi. rewrite lookup_drop.
    destruct (decide (i < length pre)%nat) as [Hin|Hout].
    - rewrite lookup_app_r by (cbn; lia). cbn [length lit].
      change (length (lit "00000000")) with 8%nat.
      replace (length pre + (7 - i) - 8)%nat with (length pre - S i)%nat by lia.
      by apply Hlk.
    - rewrite lookup_app_l by (cbn; lia).
      rewrite (testbit_high c (Z.of_nat (length pre))) by lia.
      assert (length pre + (7 - i) < 8)%nat as Hidx by lia.
      revert Hidx. generalize (length pre + (7 - i))%nat. intros k Hk.
      do 8 (destruct k as [|k]; [done|]). lia. }
  assert (Hlen : length (drop (length pre) (lit "00000000" ++ pre)) = 8%nat).
  { rewrite length_drop, length_app. cbn. lia. }
  destruct (drop (length pre) (lit "00000000" ++ pre))
    as [|c7 [|c6 [|c5 [|c4 [|c3 [|c2 [|c1 [|c0 [|c8 l]]]]]]]]];
    try discriminate Hlen.
  pose proof (Hbit 0%nat ltac:(lia)) as H0. pose proof (Hbit 1%nat ltac:(lia)) as H1.
  pose proof (Hbit 2%nat ltac:(lia)) as H2. pose proof (Hbit 3%nat ltac:(lia)) as H3.
  pose proof (Hbit 4%nat ltac:(lia)) as H4. pose proof (Hbit 5%nat ltac:(lia)) as H5.
  pose proof (Hbit 6%nat ltac:(lia)) as H6. pose proof (Hbit 7%nat ltac:(lia)) as H7.
  cbn in H0, H1, H2, H3, H4, H5, H6, H7. unfold bits8. cbn [map].
  by simplify_eq.
Qed.

Lemma binOfCh_code msg i c : msg !! i = Some c → binOfCh msg i = binOfCode c.
Proof. intros Hc. unfold binOfCh, binOfCode, charCodeAt. by rewrite Hc. Qed.

(** Past the end of the message [charCodeAt] is [NaN] and [binOfCh] is
    the text ["00000NaN"]. *)
Lemma binOfCh_past_end msg i :
  (length msg ≤ i)%nat → binOfCh msg i = lit "00000NaN".
Proof.
  intros Hi. unfold binOfCh, charCodeAt. by rewrite (lookup_ge_None_2 msg i Hi).
Qed.

Lemma bits8_lookup c j :
  (j < 8)%nat → bits8 c !! j = Some (bitChar (Z.testbit c (7 - Z.of_nat j))).
Proof. intros Hj. do 8 (destruct j as [|j]; [done|]). lia. Qed.

Lemma byte_of_bits c :
  128 * Z.b2z (Z.testbit c 7) + 64 * Z.b2z (Z.testbit c 6)
  + 32 * Z.b2z (Z.testbit c 5) + 16 * Z.b2z (Z.testbit c 4)
  + 8 * Z.b2z (Z.testbit c 3) + 4 * Z.b2z (Z.testbit c 2)
  + 2 * Z.b2z (Z.testbit c 1) + Z.b2z (Z.testbit c 0)
  = c mod 256.
Proof.
  rewrite !Z.testbit_spec' by lia.
  change (2 ^ 7) with 128. change (2 ^ 6) with 64. change (2 ^ 5) with 32.
  change (2 ^ 4) with 16. change (2 ^ 3) with 8. change (2 ^ 2) with 4.
  change (2 ^ 1) with 2. change (2 ^ 0) with 1.
  Z.to_euclidean_division_equations. lia.
Qed.

(** ** The reading side *)

Lemma isEven_Some p : isEven (Some p) = Z.even p.
Proof.
  unfold isEven. symmetry. apply Zquot.Zeven_rem.
Qed.

Lemma lsbBit_Some p : lsbBit (Some p) = lsb p.
Proof. unfold lsbBit, lsb. rewrite isEven_Some, <- Z.negb_odd. by destruct (Z.odd p). Qed.

Lemma lsbBit_cases x : lsbBit x = 0 ∨ lsbBit x = 1.
Proof. unfold lsbBit. destruct (isEven x); auto. Qed.

(** Eight rounds of [readBits], the conversions to hexadecimal and back,
    and [fromCharCode] give the one character whose code the eight bits
    spell. *)
Lemma readChar_groupValue pb counter :
  readChar pb counter = ((counter + 8)%nat, [groupValue pb counter]).
Proof.
  unfold readChar, groupValue, lsbBit. cbn [readBits].
  replace (S counter) with (counter + 1)%nat by lia.
  replace (S (counter + 1)) with (counter + 2)%nat by lia.
  replace (S (counter + 2)) with (counter + 3)%nat by lia.
  replace (S (counter + 3)) with (counter + 4)%nat by lia.
  replace (S (counter + 4)) with (counter + 5)%nat by lia.
  replace (S (counter + 5)) with (counter + 6)%nat by lia.
  replace (S (counter + 6)) with (counter + 7)%nat by lia.
  replace (S (counter + 7)) with (counter + 8)%nat by lia.
  destruct (isEven (pb !! counter)), (isEven (pb !! (counter + 1)%nat)),
    (isEven (pb !! (counter + 2)%nat)), (isEven (pb !! (counter + 3)%nat)),
    (isEven (pb !! (counter + 4)%nat)), (isEven (pb !! (counter + 5)%nat)),
    (isEven (pb !! (counter + 6)%nat)), (isEven (pb !! (counter + 7)%nat));
    reflexivity.
Qed.

(** The eight pixel bytes of payload byte [k], when the buffer holds them,
    are the ones the reading loops look at from counter [8 * k] on. *)
Lemma payloadByte_in_range pb k :
  (8 * k + 8 ≤ length pb)%nat →
  payloadByte pb k = Some (groupValue pb (8 * k)).
Proof.
  intros Hlen. unfold payloadByte, groupValue.
  assert (Hg : length (take 8 (drop (8 * k) pb)) = 8%nat)
    by (rewrite length_take, length_drop; lia).
  assert (Hlk : ∀ j, (j < 8)%nat →
            pb !! (8 * k + j)%nat = take 8 (drop (8 * k) pb) !! j)
    by (intros j Hj; by rewrite lookup_take_lt, lookup_drop).
  destruct (take 8 (drop (8 * k) pb))
    as [|p0 [|p1 [|p2 [|p3 [|p4 [|p5 [|p6 [|p7 [|p8 g]]]]]]]]];
    try discriminate Hg.
  replace (pb !! (8 * k)%nat) with (pb !! (8 * k + 0)%nat) by (f_equal; lia).
  rewrite !Hlk by lia. cbn [lookup list_lookup]. by rewrite !lsbBit_Some.
Qed.

Lemma payloadByte_out_of_range pb k :
  (length pb < 8 * k + 8)%nat → payloadByte pb k = None.
Proof.
  intros Hlen. unfold payloadByte.
  assert (Hg : (length (take 8 (drop (8 * k) pb)) < 8)%nat)
    by (rewrite length_take, length_drop; lia).
  destruct (take 8 (drop (8 * k) pb))
    as [|p0 [|p1 [|p2 [|p3 [|p4 [|p5 [|p6 [|p7 [|p8 g]]]]]]]]];
    try reflexivity; cbn [length] in Hg; lia.
Qed.

Lemma payloadByte_Some pb k v :
  payloadByte pb k = Some v ↔
  (8 * k + 8 ≤ length pb)%nat ∧ groupValue pb (8 * k) = v.
Proof.
  destruct (decide (8 * k + 8 ≤ length pb)%nat) as [Hle|Hgt].
  - rewrite payloadByte_in_range by done.
    split; [by intros [= <-] | by intros [_ ->]].
  - rewrite payloadByte_out_of_range by lia. split; [done | lia].
Qed.

(** A group that runs past the end of the buffer never spells NUL: the
    missing pixel bytes read as 1 bits. *)
Lemma groupValue_past_end pb counter :
  (length pb < counter + 8)%nat → groupValue pb counter ≠ 0.
Proof.
  intros Hlen. unfold groupValue.
  rewrite (lookup_ge_None_2 pb (counter + 7)) by lia.
  change (lsbBit None) with 1.
  pose proof (lsbBit_cases (pb !! counter)).
  pose proof (lsbBit_cases (pb !! (counter + 1)%nat)).
  pose proof (lsbBit_cases (pb !! (counter + 2)%nat)).
  pose proof (lsbBit_cases (pb !! (counter + 3)%nat)).
  pose proof (lsbBit_cases (pb !! (counter + 4)%nat)).
  pose proof (lsbBit_cases (pb !! (counter + 5)%nat)).
  pose proof (lsbBit_cases (pb !! (counter + 6)%nat)).
  lia.
Qed.

Lemma omap_payloadByte_groups pb i n :
  (8 * (i + n) ≤ length pb)%nat →
  omap (payloadByte pb) (seq i n) = groups pb i n.
Proof.
  revert i. induction n as [|n IH]; intros i Hlen; [done|].
  unfold groups. cbn [seq omap list_omap map].
  rewrite payloadByte_in_range by lia. f_equal. apply IH. lia.
Qed.

Lemma groups_split pb k n :
  (k < n)%nat →
  groups pb 0 n = groups pb 0 k ++ groupValue pb (8 * k) :: groups pb (S k) (n - S k).
Proof.
  intros Hk. unfold groups.
  replace n with (k + S (n - S k))%nat at 1 by lia.
  by rewrite seq_app, map_app.
Qed.

(** A NUL among the characters the loop decodes is a NUL payload byte. *)
Lemma elem_of_groups_0 pb :
  0 ∈ groups pb 0 (length pb) ↔ ∃ k, payloadByte pb k = Some 0.
Proof.
  unfold groups. rewrite list_elem_of_fmap. split.
  - intros (k & Hk & Hin). exists k. apply payloadByte_Some. split; [|done].
    destruct (decide (8 * k + 8 ≤ length pb)%nat); [done|].
    destruct (groupValue_past_end pb (8 * k)); [lia | done].
  - intros (k & [Hle Hk]%payloadByte_Some). exists k. split; [done|].
    apply elem_of_seq. lia.
Qed.

(** The first NUL among the payload bytes, if there is one. *)
Lemma first_nul pb :
  (∃ k, payloadByte pb k = Some 0) →
  ∃ k, payloadByte pb k = Some 0 ∧
       ∀ k', (k' < k)%nat → payloadByte pb k' ≠ Some 0.
Proof.
  intros [k Hk]. induction k as [k IH] using lt_wf_ind.
  destruct (decide (Exists (λ k', payloadByte pb k' = Some 0) (seq 0 k)))
    as [(k' & Hlt%elem_of_seq & Hk')%Exists_exists|Hnone].
  - apply (IH k'); [lia | done].
  - exists k. split; [done|]. intros k' Hlt Hk'. apply Hnone, Exists_exists.
    exists k'. split; [apply elem_of_seq; lia | done].
Qed.

(** ** The loop of unhide *)

Lemma unhideLoop_scan n pb i message ch :
  unhideLoop n pb i (8 * i) message ch = scan (groups pb i n) message ch.
Proof.
  revert i message ch. induction n as [|n IH]; intros i message ch; [done|].
  cbn [unhideLoop groups seq map scan]. case_bool_decide; [|done].
  rewrite readChar_groupValue.
  replace (8 * i + 8)%nat with (8 * S i)%nat by lia. apply IH.
Qed.

Lemma scan_not_found bs message ch :
  ch ≠ Some NUL → 0 ∉ bs → (scan bs message ch).2 ≠ Some NUL.
Proof.
  revert message ch. induction bs as [|b bs IH]; intros message ch Hch Hbs; [done|].
  apply not_elem_of_cons in Hbs as [Hb Hbs]. cbn [scan].
  rewrite bool_decide_eq_true_2 by done. apply IH; [|done].
  unfold NUL. congruence.
Qed.

Lemma scan_found pre post message ch :
  ch ≠ Some NUL → 0 ∉ pre →
  scan (pre ++ 0 :: post) message ch = (message ++ pre ++ [0], Some NUL).
Proof.
  revert message ch. induction pre as [|b pre IH]; intros message ch Hch Hpre.
  - cbn [app scan]. rewrite bool_decide_eq_true_2 by done.
    destruct post; cbn [scan]; [done|].
    by rewrite bool_decide_eq_false_2 by (intros H; by apply H).
  - apply not_elem_of_cons in Hpre as [Hb Hpre]. cbn [app scan].
    rewrite bool_decide_eq_true_2 by done.
    rewrite IH; [|unfold NUL; congruence|done]. by rewrite <- (assoc_L (++)).
Qed.

Lemma copyFrom_drop n message l hiddenMessage :
  (l + n ≤ length message)%nat →
  copyFrom n message l hiddenMessage = hiddenMessage ++ take n (drop l message).
Proof.
  revert l hiddenMessage. induction n as [|n IH]; intros l acc Hlen.
  - cbn [copyFrom take]. by rewrite app_nil_r.
  - cbn [copyFrom]. destruct (lookup_lt_is_Some_2 message l) as [c Hc]; [lia|].
    rewrite Hc, IH by lia. rewrite <- (assoc_L (++)). f_equal.
    rewrite (drop_S _ _ _ Hc). done.
Qed.

(** The test [message[0] === 's' && message[1] === 't' && message[2] == 'g']. *)
Lemma magic_test (message : jsstring) :
  bool_decide (message !! 0%nat = Some 115)
  && bool_decide (message !! 1%nat = Some 116)
  && bool_decide (message !! 2%nat = Some 103)
  = bool_decide (startsWith STEG_MAGIC message).
Proof.
  unfold startsWith.
  destruct message as [|a [|b [|c message]]]; cbn;
    repeat case_bool_decide; simplify_eq; try done.
Qed.

Lemma startsWith_magic_snoc_0 (s : jsstring) :
  startsWith STEG_MAGIC (s ++ [0]) ↔ startsWith STEG_MAGIC s.
Proof.
  unfold startsWith.
  destruct s as [|a [|b [|c s]]]; cbn; split; intros; simplify_eq; done.
Qed.

(** What [unhide] returns once the first NUL payload byte is at index [k]. *)
Lemma unhide_terminated this h k :
  let pb := deref h (pixelBytes (ppm this)) in
  payloadByte pb k = Some 0 →
  (∀ k', (k' < k)%nat → payloadByte pb k' ≠ Some 0) →
  unhide this h =
    if bool_decide (startsWith STEG_MAGIC (payload pb k))
    then UnhideMsg (drop 3 (payload pb k) ++ NUL)
    else UnhideError (lit "STEG_NO_MSG: image does not have a message!").
Proof.
  intros pb [Hle Hk]%payloadByte_Some Hfirst. unfold unhide. fold pb.
  change 0%nat with (8 * 0)%nat at 2. rewrite unhideLoop_scan.
  rewrite (groups_split pb k) by lia. rewrite Hk.
  assert (Hpay : payload pb k = groups pb 0 k)
    by (apply omap_payloadByte_groups; lia).
  assert (Hpre : 0 ∉ groups pb 0 k).
  { unfold groups. rewrite list_elem_of_fmap. intros (k' & Hk' & Hin%elem_of_seq).
    apply (Hfirst k'); [lia|]. apply payloadByte_Some. split; [lia | done]. }
  rewrite scan_found by done. rewrite bool_decide_eq_false_2 by (intros H; by apply H).
  rewrite magic_test, <- Hpay. cbn [app].
  rewrite (bool_decide_ext _ _ (startsWith_magic_snoc_0 (payload pb k))).
  case_bool_decide as Hm; [|done].
  assert (3 ≤ length (payload pb k))%nat.
  { unfold startsWith in Hm. apply (f_equal length) in Hm.
    rewrite length_take in Hm. change (length STEG_MAGIC) with 3%nat in Hm. lia. }
  rewrite copyFrom_drop by (rewrite length_app; cbn; lia).
  cbn [app]. rewrite take_ge by (rewrite length_drop, length_app; cbn; lia).
  by rewrite drop_app_le by lia.
Qed.

Lemma unhide_unterminated this h :
  let pb := deref h (pixelBytes (ppm this)) in
  0 ∉ groups pb 0 (length pb) →
  unhide this h = UnhideError (lit "STEG_BAD_MSG: bad message!").
Proof.
  intros pb Hno. unfold unhide. fold pb.
  change 0%nat with (8 * 0)%nat at 2. rewrite unhideLoop_scan.
  pose proof (scan_not_found (groups pb 0 (length pb)) [] None) as Hscan.
  destruct (scan _ _ _) as [message ch]. cbn [snd] in Hscan.
  by rewrite bool_decide_eq_true_2 by (by apply Hscan).
Qed.

(** ** The writing side *)

Lemma hideBit_lookup bin j count pb pos :
  hideBit bin j count pb !! pos =
    if decide (pos = count) then writeBit (bin !! j) <$> pb !! pos else pb !! pos.
Proof.
  unfold hideBit, writeBit. destruct (pb !! count) as [p|] eqn:Hp.
  - apply lookup_lt_Some in Hp as Hlt. rewrite isEven_Some.
    destruct (Z.even p) eqn:He; case_bool_decide;
      destruct (decide (pos = count)) as [->|Hne];
      rewrite ?list_lookup_insert_eq by done;
      rewrite ?list_lookup_insert_ne by done;
      rewrite ?Hp; cbn; rewrite ?He; done.
  - apply lookup_ge_None in Hp as Hge. cbn [isEven].
    rewrite list_insert_ge by done.
    case_decide; subst; rewrite ?Hp; by case_bool_decide.
Qed.

Lemma hideBits_count n bin j count pb :
  (hideBits n bin j count pb).1 = (count + n)%nat.
Proof.
  revert j count pb. induction n as [|n IH]; intros j count pb; cbn [hideBits].
  - cbn. lia.
  - rewrite IH. lia.
Qed.

Lemma hideBits_lookup n bin j count pb pos :
  (hideBits n bin j count pb).2 !! pos =
    if decide (count ≤ pos < count + n)%nat
    then writeBit (bin !! (j + (pos - count))%nat) <$> pb !! pos
    else pb !! pos.
Proof.
  revert j count pb. induction n as [|n IH]; intros j count pb; cbn [hideBits].
  - cbn [snd]. case_decide; [lia | done].
  - rewrite IH, hideBit_lookup.
    repeat case_decide; try lia; try done.
    + do 3 f_equal. lia.
    + subst pos. do 3 f_equal. lia.
Qed.

(** The writing loop, pixel byte by pixel byte: round [pos / 8] rewrites
    pixel byte [pos] from character [pos mod 8] of its [binOfCh]. *)
Lemma hideLoop_lookup n msg i pb pos :
  (hideLoop n msg i (8 * i) pb).2 !! pos =
    if decide (8 * i ≤ pos < 8 * (i + n))%nat
    then writeBit (binOfCh msg (pos `div` 8) !! (pos `mod` 8)%nat) <$> pb !! pos
    else pb !! pos.
Proof.
  revert i pb. induction n as [|n IH]; intros i pb; cbn [hideLoop].
  - cbn [snd]. case_decide; [lia | done].
  - destruct (hideBits 8 (binOfCh msg i) 0 (8 * i) pb) as [count' pb'] eqn:Hb.
    assert (count' = (8 * S i)%nat) as ->.
    { apply (f_equal fst) in Hb. rewrite hideBits_count in Hb. cbn in Hb. lia. }
    assert (pb' = (hideBits 8 (binOfCh msg i) 0 (8 * i) pb).2) as ->
      by (by rewrite Hb).
    rewrite IH, hideBits_lookup.
    repeat case_decide; try lia; try done.
    assert (pos `div` 8 = i)%nat as -> by (symmetry; apply (Nat.div_unique _ _ _ (pos - 8 * i)); lia).
    assert (pos `mod` 8 = pos - 8 * i)%nat as -> by (symmetry; apply (Nat.mod_unique _ _ i); lia).
    done.
Qed.

Lemma hideBits_length n bin j count pb :
  length (hideBits n bin j count pb).2 = length pb.
Proof.
  revert j count pb. induction n as [|n IH]; intros j count pb; [done|].
  cbn [hideBits]. rewrite IH. unfold hideBit.
  repeat case_match; by rewrite ?length_insert.
Qed.

Lemma hideLoop_length n msg i count pb :
  length (hideLoop n msg i count pb).2 = length pb.
Proof.
  revert i count pb. induction n as [|n IH]; intros i count pb; cbn [hideLoop]; [done|].
  destruct (hideBits 8 (binOfCh msg i) 0 count pb) as [count' pb'] eqn:Hb.
  rewrite IH. apply (f_equal snd) in Hb. cbn [snd] in Hb. subst pb'.
  apply hideBits_length.
Qed.

(** The least-significant bit one round of the writing loop leaves. *)
Lemma lsbBit_writeBit c p :
  lsbBit (Some (writeBit c p)) =
    if bool_decide (c = Some 48) then 0
    else if bool_decide (c = Some 49) then 1
    else lsb p.
Proof.
  rewrite lsbBit_Some. unfold writeBit, lsb.
  destruct (Z.even p) eqn:He; repeat case_bool_decide; simplify_eq;
    rewrite <- ?Z.bit0_odd, ?Z.lor_spec, ?Z.land_spec, ?Z.bit0_odd,
      <- ?Z.negb_even, ?He; done.
Qed.

Lemma lsbBit_hideLoop n msg pb pos :
  (pos < length pb)%nat → (pos < 8 * n)%nat →
  lsbBit ((hideLoop n msg 0 0 pb).2 !! pos) =
    let c := binOfCh msg (pos `div` 8) !! (pos `mod` 8)%nat in
    if bool_decide (c = Some 48) then 0
    else if bool_decide (c = Some 49) then 1
    else lsbBit (pb !! pos).
Proof.
  intros Hlen Hpos. change 0%nat with (8 * 0)%nat at 2.
  rewrite hideLoop_lookup. rewrite decide_True by lia.
  destruct (lookup_lt_is_Some_2 pb pos Hlen) as [p Hp]. rewrite Hp.
  cbn [fmap option_fmap option_map]. by rewrite lsbBit_writeBit, lsbBit_Some.
Qed.

Lemma div_mod_8 k j : (j < 8)%nat →
  ((8 * k + j) `div` 8 = k ∧ (8 * k + j) `mod` 8 = j)%nat.
Proof.
  intros Hj. split; symmetry.
  - apply (Nat.div_unique _ _ _ j); lia.
  - apply (Nat.mod_unique _ _ k); lia.
Qed.

(** Bit [7 - j] of character [k] of the message becomes the
    least-significant bit of pixel byte [8 * k + j]. *)
Lemma lsbBit_written n msg pb k j c :
  (8 * k + j < length pb)%nat → (j < 8)%nat → (k < n)%nat →
  msg !! k = Some c → 0 ≤ c →
  lsbBit ((hideLoop n msg 0 0 pb).2 !! (8 * k + j)%nat)
  = Z.b2z (Z.testbit c (7 - Z.of_nat j)).
Proof.
  intros Hlen Hj Hk Hc Hpos. rewrite lsbBit_hideLoop by lia. cbv zeta.
  destruct (div_mod_8 k j Hj) as [-> ->].
  rewrite (binOfCh_code _ _ _ Hc), binOfCode_bits8, bits8_lookup by done.
  by destruct (Z.testbit c (7 - Z.of_nat j)).
Qed.

(** The eight pixel bytes written for character [k] read back as its code,
    modulo 256. *)
Lemma hideLoop_groupValue n msg pb k c :
  (8 * k + 8 ≤ length pb)%nat → (k < n)%nat → msg !! k = Some c → 0 ≤ c →
  groupValue (hideLoop n msg 0 0 pb).2 (8 * k) = c mod 256.
Proof.
  intros Hlen Hk Hc Hpos. unfold groupValue.
  replace (8 * k)%nat with (8 * k + 0)%nat at 1 by lia.
  rewrite !(lsbBit_written n msg pb k _ c) by (done || lia).
  apply byte_of_bits.
Qed.

(** After a successful [hide] the first 24 pixel bytes spell the magic
    token, whatever the message. *)
Lemma hideLoop_magic msg pb :
  (24 ≤ length pb)%nat →
  groups (hideLoop (length (framed msg) + 4) (framed msg) 0 0 pb).2 0 3
  = STEG_MAGIC.
Proof.
  intros Hlen. unfold groups, groupValue. cbn [seq map Nat.mul Nat.add].
  rewrite !lsbBit_hideLoop by (rewrite ?length_framed; lia).
  unfold framed. vm_compute. reflexivity.
Qed.

(** A pixel byte keeps its seven upper bits. *)
Lemma writeBit_upper_bits c p :
  0 ≤ p < 256 → Z.shiftr (writeBit c p) 1 = Z.shiftr p 1.
Proof.
  intros Hp. unfold writeBit.
  destruct (Z.even p); case_bool_decide; try done.
  - rewrite Z.shiftr_lor. change (Z.shiftr 1 1) with 0. apply Z.lor_0_r.
  - rewrite Z.shiftr_land. change (Z.shiftr 510 1) with (Z.ones 8).
    rewrite Z.land_ones by lia. apply Z.mod_small.
    rewrite Z.shiftr_div_pow2 by lia. change (2 ^ 1) with 2. change (2 ^ 8) with 256.
    Z.to_euclidean_division_equations. lia.
Qed.

Lemma fmap_seq_ext {A} (f : nat → A) (g : Z → A) (l : list Z) s :
  (∀ i c, l !! i = Some c → f (s + i)%nat = g c) →
  map f (seq s (length l)) = map g l.
Proof.
  revert s. induction l as [|c l IH]; intros s Hfg; [done|].
  cbn [length seq map]. f_equal.
  - rewrite <- (Hfg 0%nat c) by done. f_equal. lia.
  - apply IH. intros i c' Hi. rewrite <- (Hfg (S i) c') by done. f_equal. lia.
Qed.

(** The payload bytes of the buffer [hide] wrote are the characters of the
    message, modulo 256. *)
Lemma payload_hideLoop n msg pb m :
  (m ≤ length msg)%nat → (m ≤ n)%nat → (8 * m ≤ length pb)%nat →
  Forall (λ c, 0 ≤ c) msg →
  payload (hideLoop n msg 0 0 pb).2 m = map (λ c, c mod 256) (take m msg).
Proof.
  intros Hm Hn Hlen Hmsg. unfold payload.
  rewrite omap_payloadByte_groups by (rewrite hideLoop_length; lia).
  unfold groups. rewrite <- (length_take_le msg m) at 1 by done.
  apply fmap_seq_ext. intros i c [Hc Hi]%lookup_take_Some.
  apply hideLoop_groupValue; [lia | lia | done |].
  by apply (Forall_lookup_1 _ _ _ _ Hmsg Hc).
Qed.

(** ** The outcomes of hide *)

Lemma length_framed msg : length (framed msg) = (length msg + 4)%nat.
Proof. unfold framed. rewrite !length_app. cbn. lia. Qed.

Lemma framed_nonneg msg : Forall (λ c, 0 ≤ c) msg → Forall (λ c, 0 ≤ c) (framed msg).
Proof.
  intros Hmsg. unfold framed. apply Forall_app. split.
  - by repeat constructor.
  - apply Forall_app. split; [done|]. by repeat constructor.
Qed.

Lemma deref_alloc h b : deref (h ++ [b]) (length h) = b.
Proof. unfold deref. by rewrite list_lookup_middle. Qed.

Lemma stgControl_groups pb :
  stgControl 3 pb 0 [] = (24%nat, groups pb 0 3).
Proof. cbn [stgControl]. by rewrite !readChar_groupValue. Qed.

(** The three outcomes of [hide], with the store each leaves behind. *)
Lemma hide_cases this msg h :
  let pb := deref h (pixelBytes (ppm this)) in
  let ppmOut := (Ppm_copy (ppm this) h).1 in
  hide this msg h =
    if (length pb <? length (framed msg))%nat
    then (HideError (lit "STEG_TOO_BIG error!"), h ++ [pb])
    else if bool_decide (groups pb 0 3 = STEG_MAGIC)
    then (HideError (lit "STEG_MSG: image already contains a hidden message!"),
          h ++ [pb])
    else (HidePpm ppmOut,
          h ++ [(hideLoop (length (framed msg) + 4) (framed msg) 0 0 pb).2]).
Proof.
  intros pb ppmOut. unfold hide, Ppm_copy. cbn [pixelBytes fst].
  rewrite deref_alloc. fold pb. fold (framed msg).
  destruct (length pb <? length (framed msg))%nat; [done|].
  rewrite stgControl_groups. case_bool_decide; [done|].
  destruct (hideLoop _ _ _ _ _) as [count pb'] eqn:Hl. cbn [snd]. f_equal.
  replace (length h) with (length h + 0)%nat at 1 by lia.
  by rewrite insert_app_r.
Qed.

(** What a successful [hide] returns and leaves in the store. *)
Lemma hide_success this msg h ppmOut :
  (hide this msg h).1 = HidePpm ppmOut →
  let pb := deref h (pixelBytes (ppm this)) in
  ppmOut = (Ppm_copy (ppm this) h).1
  ∧ (hide this msg h).2 =
      h ++ [(hideLoop (length (framed msg) + 4) (framed msg) 0 0 pb).2]
  ∧ (length (framed msg) ≤ length pb)%nat
  ∧ groups pb 0 3 ≠ STEG_MAGIC.
Proof.
  rewrite hide_cases. cbv zeta.
  destruct (_ <? _)%nat eqn:Hcap; [done|]. apply Nat.ltb_ge in Hcap.
  case_bool_decide; [done|]. cbn [fst snd]. by intros [= <-].
Qed.

(** X7. What [hide] does with the capacity: it fails with STEG_TOO_BIG
    exactly when the buffer has fewer pixel bytes than the framed message
    has characters, whatever the pixel bytes are. *)
Lemma hide_too_big_iff this msg h :
  hideFailsWith (lit "STEG_TOO_BIG") (hide this msg h).1 ↔
  (length (deref h (pixelBytes (ppm this))) < length (framed msg))%nat.
Proof.
  rewrite hide_cases. cbv zeta.
  destruct (_ <? _)%nat eqn:Hlt.
  - apply Nat.ltb_lt in Hlt. done.
  - apply Nat.ltb_ge in Hlt. case_bool_decide; cbn [fst hideFailsWith].
    + split; [intros [=] | lia].
    + split; [done | lia].
Qed.

(** Replaces the image and the store of a successful [hide] by what
    [hide_success] says they are. *)
Ltac hide_succeeded Hok :=
  destruct (hide_success _ _ _ _ Hok) as (-> & -> & _ & _);
  match goal with
  | |- context [Ppm_copy ?p ?h] =>
      change (pixelBytes (Ppm_copy p h).1) with (length h)
  end;
  rewrite ?deref_alloc.

(** The pixel buffer of the image a successful [hide] returns, byte by
    byte: the rounds of the writing loop cover the first
    [8 * (length (framed msg) + 4)] pixel bytes. *)
Lemma hide_pixel_bytes this msg h ppmOut pos :
  (hide this msg h).1 = HidePpm ppmOut →
  let pb := deref h (pixelBytes (ppm this)) in
  deref (hide this msg h).2 (pixelBytes ppmOut) !! pos =
    if decide (pos < 8 * (length (framed msg) + 4))%nat
    then writeBit (binOfCh (framed msg) (pos `div` 8) !! (pos `mod` 8)%nat)
           <$> pb !! pos
    else pb !! pos.
Proof.
  intros Hok pb. hide_succeeded Hok. fold pb.
  change 0%nat with (8 * 0)%nat at 2.
  rewrite hideLoop_lookup. repeat case_decide; done || lia.
Qed.

(** * The claims *)

(** C1. On the black 8 x 8 image, whose 192 pixel bytes take the 48 bits of
    the framed message ["hi"], [hide] succeeds, and [unhide] on the image
    it returns gives ["hi"] followed by the terminating NUL, not ["hi"]. *)
Theorem roundtrip_keeps_terminator :
  (8 * length (framed (lit "hi"))
   ≤ length (deref (plainStore 0) (pixelBytes (ppm plainModule))))%nat
  ∧ ∃ ppmOut,
    (hide plainModule (lit "hi") (plainStore 0)).1 = HidePpm ppmOut
    ∧ unhide (mkStegModule 2 ppmOut) (hide plainModule (lit "hi") (plainStore 0)).2
      = UnhideMsg (lit "hi" ++ NUL)
    ∧ UnhideMsg (lit "hi" ++ NUL) ≠ UnhideMsg (lit "hi").
Proof.
  split; [vm_compute; lia|].
  eexists. split; [vm_compute; reflexivity|].
  split; [vm_compute; reflexivity | discriminate].
Qed.

(** X1. What [unhide] makes of the image [hide] returned, when the message
    fits bit for bit and no character is 0 modulo 256: the characters modulo
    256, and the terminating NUL after them. *)
Theorem unhide_hide this msg h ppmOut id' :
  let pb := deref h (pixelBytes (ppm this)) in
  (hide this msg h).1 = HidePpm ppmOut →
  (8 * length (framed msg) ≤ length pb)%nat →
  Forall (λ c, 0 ≤ c ∧ c mod 256 ≠ 0) msg →
  unhide (mkStegModule id' ppmOut) (hide this msg h).2
  = UnhideMsg (map (λ c, c mod 256) msg ++ NUL).
Proof.
  intros pb Hok Hcap Hmsg.
  destruct (hide_success _ _ _ _ Hok) as (-> & -> & _ & _). fold pb.
  set (pb1 := (hideLoop (length (framed msg) + 4) (framed msg) 0 0 pb).2).
  assert (Hnn : Forall (λ c, 0 ≤ c) (framed msg)).
  { apply framed_nonneg. eapply Forall_impl; [exact Hmsg|]. by intros c [? _]. }
  assert (Hlen1 : length pb1 = length pb) by apply hideLoop_length.
  pose proof (length_framed msg) as HL.
  assert (Hbyte : ∀ k c, framed msg !! k = Some c →
            payloadByte pb1 k = Some (c mod 256)).
  { intros k c Hc. apply lookup_lt_Some in Hc as Hk.
    rewrite payloadByte_in_range by lia. f_equal.
    apply hideLoop_groupValue; [lia | lia | done |].
    by apply (Forall_lookup_1 _ _ _ _ Hnn Hc). }
  assert (Hpay : payload pb1 (length msg + 3)
                 = STEG_MAGIC ++ map (λ c, c mod 256) msg).
  { unfold pb1. rewrite payload_hideLoop by (done || lia).
    unfold framed. rewrite (assoc_L (++)).
    rewrite take_app_length' by (rewrite length_app; cbn; lia).
    by rewrite fmap_app. }
  rewrite (unhide_terminated _ _ (length msg + 3)); cbn [ppm];
    change (pixelBytes (Ppm_copy (ppm this) h).1) with (length h);
    rewrite deref_alloc; fold pb1.
  - rewrite Hpay. rewrite bool_decide_eq_true_2 by done.
    by rewrite drop_app_length' by done.
  - rewrite (Hbyte _ 0); [done|]. unfold framed.
    rewrite lookup_app_r by (cbn; lia). rewrite lookup_app_r by (cbn; lia).
    cbn [length STEG_MAGIC lit]. by replace (_ - _ - _)%nat with 0%nat by lia.
  - intros k' Hk'.
    destruct (lookup_lt_is_Some_2 (framed msg) k') as [c Hc]; [lia|].
    rewrite (Hbyte _ _ Hc). intros [= Hz]. unfold framed in Hc.
    apply lookup_app_Some in Hc as [Hc|[Hge3 Hc]].
    + apply list_elem_of_lookup_2 in Hc. revert Hz.
      apply list_elem_of_In in Hc. cbn in Hc. by destruct Hc as [<-|[<-|[<-|[]]]].
    + apply lookup_app_Some in Hc as [Hc|[Hge Hc]].
      * by destruct (Forall_lookup_1 _ _ _ _ Hmsg Hc).
      * cbn [length STEG_MAGIC lit] in Hge3, Hge, Hc.
        apply lookup_lt_Some in Hc. cbn in Hc. lia.
Qed.

(** C2. On the white 8 x 8 image [hide] of the empty message, whose framed
    message has 4 characters and takes the first 32 pixel bytes, also
    changes pixel byte 32 from 255 to 254. *)
Theorem hide_writes_past_message :
  ∃ ppmOut,
    (hide plainModule [] (plainStore 255)).1 = HidePpm ppmOut
    ∧ (8 * length (framed []) ≤ 32)%nat
    ∧ deref (plainStore 255) (pixelBytes (ppm plainModule)) !! 32%nat = Some 255
    ∧ deref (hide plainModule [] (plainStore 255)).2 (pixelBytes ppmOut) !! 32%nat
      = Some 254.
Proof.
  eexists. split; [vm_compute; reflexivity|].
  split; [vm_compute; lia|]. split; vm_compute; reflexivity.
Qed.

(** X4. What a successful [hide] does to the pixel bytes: the buffer keeps its
    length, every pixel byte keeps its seven upper bits, bit [7 - j] of
    character [k] of the framed message is the least-significant bit of
    pixel byte [8 * k + j], and the pixel bytes from
    [8 * (length (framed msg) + 4)] on are the source's. *)
Lemma hide_prefix_written this msg h ppmOut :
  (hide this msg h).1 = HidePpm ppmOut →
  let pb := deref h (pixelBytes (ppm this)) in
  let pb' := deref (hide this msg h).2 (pixelBytes ppmOut) in
  Forall (λ p, 0 ≤ p < 256) pb → Forall (λ c, 0 ≤ c) msg →
  length pb' = length pb
  ∧ (∀ pos p, pb !! pos = Some p →
       ∃ q, pb' !! pos = Some q ∧ Z.shiftr q 1 = Z.shiftr p 1)
  ∧ (∀ k j c, (j < 8)%nat → (8 * k + j < length pb)%nat →
       framed msg !! k = Some c →
       lsbBit (pb' !! (8 * k + j)%nat) = Z.b2z (Z.testbit c (7 - Z.of_nat j)))
  ∧ (∀ pos, (8 * (length (framed msg) + 4) ≤ pos)%nat → pb' !! pos = pb !! pos).
Proof.
  intros Hok pb pb' Hpb Hmsg. split; [|split; [|split]].
  - unfold pb'. hide_succeeded Hok. by rewrite hideLoop_length.
  - intros pos p Hp. unfold pb'. rewrite (hide_pixel_bytes _ _ _ _ _ Hok).
    fold pb. rewrite Hp. case_decide; cbn; eexists; (split; [done|]); [|done].
    apply writeBit_upper_bits. by apply (Forall_lookup_1 _ _ _ _ Hpb Hp).
  - intros k j c Hj Hlen Hc. unfold pb'. hide_succeeded Hok. fold pb.
    apply lookup_lt_Some in Hc as Hk.
    apply lsbBit_written; [done | done | lia | done |].
    by apply (Forall_lookup_1 _ _ _ _ (framed_nonneg _ Hmsg) Hc).
  - intros pos Hpos. unfold pb'. rewrite (hide_pixel_bytes _ _ _ _ _ Hok).
    by rewrite decide_False by lia.
Qed.

(** X5. The four extra rounds of the writing loop clear the least-significant
    bit of the first five pixel bytes of each of the four groups after the
    framed message. *)
Lemma hide_extra_rounds this msg h ppmOut k j :
  (hide this msg h).1 = HidePpm ppmOut →
  let pb := deref h (pixelBytes (ppm this)) in
  let pb' := deref (hide this msg h).2 (pixelBytes ppmOut) in
  (length (framed msg) ≤ k < length (framed msg) + 4)%nat → (j < 5)%nat →
  (8 * k + j < length pb)%nat →
  lsbBit (pb' !! (8 * k + j)%nat) = 0.
Proof.
  intros Hok pb pb' Hk Hj Hlen. unfold pb'. hide_succeeded Hok. fold pb.
  rewrite lsbBit_hideLoop by lia. cbv zeta.
  destruct (div_mod_8 k j ltac:(lia)) as [-> ->].
  rewrite binOfCh_past_end by lia.
  do 5 (destruct j as [|j]; [done|]). lia.
Qed.

(** C3. On the 3 x 1 image, whose 9 pixel bytes cannot take the 32 bits of
    the framed empty message, [hide] does not fail with STEG_TOO_BIG: it
    returns an image. *)
Theorem hide_capacity_counts_characters :
  (length (deref tinyStore (pixelBytes (ppm tinyModule)))
   < 8 * length (framed []))%nat
  ∧ ¬ hideFailsWith (lit "STEG_TOO_BIG") (hide tinyModule [] tinyStore).1
  ∧ ∃ ppmOut, (hide tinyModule [] tinyStore).1 = HidePpm ppmOut.
Proof.
  split; [vm_compute; lia|]. split; [vm_compute; tauto|].
  eexists. vm_compute. reflexivity.
Qed.

(** C4. For a message that passes the capacity check of [hide], on a buffer
    that holds the 24 pixel bytes of three payload bytes, [hide] fails with
    a STEG_MSG error exactly when the first three payload bytes of the
    source buffer are the magic token; the store it then leaves is the
    store it was given plus the unmodified copy of the source buffer.  A
    message that fits bit for bit ([8 * length (framed msg) <= length pb])
    satisfies both hypotheses. *)
Theorem hide_already_hidden this msg h :
  let pb := deref h (pixelBytes (ppm this)) in
  (length (framed msg) ≤ length pb)%nat →
  (24 ≤ length pb)%nat →
  (hideFailsWith (lit "STEG_MSG") (hide this msg h).1 ↔
   payload pb 3 = STEG_MAGIC)
  ∧ (hideFailsWith (lit "STEG_MSG") (hide this msg h).1 →
     (hide this msg h).2 = h ++ [pb]).
Proof.
  intros pb Hcap Hlen. rewrite hide_cases. fold pb.
  assert (Hpay : payload pb 3 = groups pb 0 3)
    by (apply omap_payloadByte_groups; lia).
  rewrite (proj2 (Nat.ltb_ge _ _) Hcap), Hpay.
  case_bool_decide as Hm; cbn [fst snd hideFailsWith]; split; try done.
Qed.

(** C5. [unhide] fails with a STEG_BAD_MSG error exactly when no payload
    byte of the buffer, each made of eight consecutive pixel bytes by the
    read bit-mapping, is NUL. *)
Theorem unhide_bad_msg_iff this h :
  unhideFailsWith (lit "STEG_BAD_MSG") (unhide this h) ↔
  ∀ k, payloadByte (deref h (pixelBytes (ppm this))) k ≠ Some 0.
Proof.
  set (pb := deref h (pixelBytes (ppm this))).
  destruct (decide (0 ∈ groups pb 0 (length pb))) as [Hin|Hno].
  - apply elem_of_groups_0, first_nul in Hin as (k & Hk & Hfirst).
    rewrite (unhide_terminated this h k Hk Hfirst). fold pb. split.
    + case_bool_decide; [done|]. intros [=].
    + intros Hall. by destruct (Hall k).
  - rewrite (unhide_unterminated this h Hno). split; [|done].
    intros _ k Hk. apply Hno, elem_of_groups_0. eauto.
Qed.

(** C6. When [unhide] decodes a NUL terminator, payload byte [k], before
    the buffer is exhausted and the payload bytes before it do not begin
    with the magic token, it fails with a STEG_NO_MSG error. *)
Theorem unhide_no_msg this h k :
  let pb := deref h (pixelBytes (ppm this)) in
  payloadByte pb k = Some 0 →
  (∀ k', (k' < k)%nat → payloadByte pb k' ≠ Some 0) →
  ¬ startsWith STEG_MAGIC (payload pb k) →
  unhideFailsWith (lit "STEG_NO_MSG") (unhide this h).
Proof.
  intros pb Hk Hfirst Hmagic.
  rewrite (unhide_terminated this h k Hk Hfirst). fold pb.
  by rewrite bool_decide_eq_false_2.
Qed.

(** C7. When [hide] has succeeded on a source image with at least the 24
    pixel bytes of the magic token, [hide] on the image it returned fails
    with a STEG_MSG error for every message that passes the capacity
    check.  Messages that fit bit for bit
    ([8 * length (framed msg) <= length pb], which makes the buffer at
    least 32 bytes long) are a special case. *)
Theorem hide_twice_rejected this msg h ppmOut id' msg' :
  let pb := deref h (pixelBytes (ppm this)) in
  (24 ≤ length pb)%nat →
  (hide this msg h).1 = HidePpm ppmOut →
  (length (framed msg') ≤ length pb)%nat →
  hideFailsWith (lit "STEG_MSG")
    (hide (mkStegModule id' ppmOut) msg' (hide this msg h).2).1.
Proof.
  intros pb Hlen Hok Hcap'.
  destruct (hide_success _ _ _ _ Hok) as (-> & -> & _ & _). fold pb.
  rewrite hide_cases. cbn [ppm].
  change (pixelBytes (Ppm_copy (ppm this) h).1) with (length h).
  rewrite !deref_alloc, hideLoop_length.
  rewrite (proj2 (Nat.ltb_ge _ _) Hcap').
  by rewrite hideLoop_magic, bool_decide_eq_true_2.
Qed.

(** C8. Every error text of [hide] begins with STEG_TOO_BIG or STEG_MSG,
    every error text of [unhide] with STEG_NO_MSG or STEG_BAD_MSG, and a
    description follows the token. *)
Theorem error_prefix_contract this msg h :
  (∀ error, (hide this msg h).1 = HideError error →
     ∃ text, text ≠ [] ∧
       (error = lit "STEG_TOO_BIG" ++ text ∨ error = lit "STEG_MSG" ++ text))
  ∧ (∀ error, unhide this h = UnhideError error →
     ∃ text, text ≠ [] ∧
       (error = lit "STEG_NO_MSG" ++ text ∨ error = lit "STEG_BAD_MSG" ++ text)).
Proof.
  split; intros error.
  - rewrite hide_cases. cbv zeta.
    destruct (_ <? _)%nat; [|case_bool_decide]; cbn [fst]; intros [= <-].
    + exists (lit " error!"). split; [done | by left].
    + exists (lit ": image already contains a hidden message!").
      split; [done | by right].
  - unfold unhide. destruct (unhideLoop _ _ _ _ _ _) as [message ch].
    case_bool_decide; [|destruct (_ && _)]; intros [= <-].
    + exists (lit ": bad message!"). split; [done | by right].
    + exists (lit ": image does not have a message!"). split; [done | by left].
Qed.

(** C9. [hide] leaves every buffer of the store it was given as it was, the
    source buffer among them; on success the image it returns owns a newly
    allocated buffer, has the meta-information of the source image, and its
    pixel buffer has the length of the source buffer. *)
Theorem hide_preserves_source this msg h :
  let pb := deref h (pixelBytes (ppm this)) in
  (pixelBytes (ppm this) < length h)%nat →
  (∀ l, (l < length h)%nat → (hide this msg h).2 !! l = h !! l)
  ∧ ∀ ppmOut, (hide this msg h).1 = HidePpm ppmOut →
      pixelBytes ppmOut ≠ pixelBytes (ppm this)
      ∧ pixelBytes ppmOut = length h
      ∧ header ppmOut = header (ppm this)
      ∧ comments ppmOut = comments (ppm this)
      ∧ resolution ppmOut = resolution (ppm this)
      ∧ colorDepth ppmOut = colorDepth (ppm this)
      ∧ length (deref (hide this msg h).2 (pixelBytes ppmOut)) = length pb.
Proof.
  intros pb Hvalid. rewrite hide_cases. fold pb. cbv zeta.
  destruct (_ <? _)%nat; [|case_bool_decide]; cbn [fst snd];
    (split; [intros l Hl; by rewrite lookup_app_l|]); intros ppmOut [= <-].
  unfold Ppm_copy. cbn [fst pixelBytes header comments resolution colorDepth].
  rewrite deref_alloc, hideLoop_length. repeat split; lia.
Qed.

(** C10. [unhide] on an image whose pixel buffer is empty returns a
    STEG_BAD_MSG error. *)
Theorem unhide_empty_buffer this h :
  length (deref h (pixelBytes (ppm this))) = 0%nat →
  unhide this h = UnhideError (lit "STEG_BAD_MSG: bad message!")
  ∧ unhideFailsWith (lit "STEG_BAD_MSG") (unhide this h).
Proof.
  intros Hlen. unfold unhide.
  destruct (deref h (pixelBytes (ppm this))); [|discriminate Hlen].
  split; reflexivity.
Qed.

(** ** The theorems at concrete images *)

Lemma hide_already_hidden_witness :
  (hideFailsWith (lit "STEG_MSG") (hide plainModule (lit "hi") (plainStore 0)).1 ↔
   payload (replicate 192 0) 3 = STEG_MAGIC)
  ∧ (hideFailsWith (lit "STEG_MSG") (hide plainModule (lit "hi") (plainStore 0)).1 →
     (hide plainModule (lit "hi") (plainStore 0)).2
     = plainStore 0 ++ [replicate 192 0]).
Proof.
  apply (hide_already_hidden plainModule (lit "hi") (plainStore 0));
    vm_compute; lia.
Defined.

Lemma unhide_bad_msg_iff_witness :
  unhideFailsWith (lit "STEG_BAD_MSG") (unhide emptyModule emptyStore).
Proof.
  apply (unhide_bad_msg_iff emptyModule emptyStore). intros k.
  rewrite payloadByte_out_of_range; [discriminate|].
  change (deref emptyStore (pixelBytes (ppm emptyModule))) with (@nil Z).
  cbn [length]. lia.
Defined.

Lemma unhide_no_msg_witness :
  unhideFailsWith (lit "STEG_NO_MSG") (unhide plainModule (plainStore 0)).
Proof.
  apply (unhide_no_msg plainModule (plainStore 0) 0).
  - reflexivity.
  - intros k' Hk'. lia.
  - vm_compute. discriminate.
Defined.

Lemma hide_twice_rejected_witness :
  hideFailsWith (lit "STEG_MSG")
    (hide (mkStegModule 2 (mkPpm (lit "P6") [] (8, 8) 255 1)) (lit "yo")
       (hide plainModule (lit "hi") (plainStore 0)).2).1.
Proof.
  apply (hide_twice_rejected plainModule (lit "hi") (plainStore 0) _ 2 (lit "yo")).
  - vm_compute. lia.
  - vm_compute. reflexivity.
  - vm_compute. lia.
Defined.

Lemma error_prefix_contract_witness :
  ∃ text, text ≠ [] ∧
    (lit "STEG_TOO_BIG error!" = lit "STEG_TOO_BIG" ++ text
     ∨ lit "STEG_TOO_BIG error!" = lit "STEG_MSG" ++ text).
Proof.
  apply (proj1 (error_prefix_contract tinyModule (lit "a long message") tinyStore)).
  reflexivity.
Defined.

Lemma hide_preserves_source_witness :
  (hide plainModule (lit "hi") (plainStore 0)).2 !! 0%nat = plainStore 0 !! 0%nat.
Proof.
  apply (hide_preserves_source plainModule (lit "hi") (plainStore 0));
    vm_compute; lia.
Defined.

Lemma unhide_empty_buffer_witness :
  unhide emptyModule emptyStore = UnhideError (lit "STEG_BAD_MSG: bad message!")
  ∧ unhideFailsWith (lit "STEG_BAD_MSG") (unhide emptyModule emptyStore).
Proof. apply (unhide_empty_buffer emptyModule emptyStore). reflexivity. Defined.

(** * Further properties of the codec *)

(** ** Helper lemmas *)

Lemma groupValue_ext pb pb' counter :
  (∀ i, lsbBit (pb !! i) = lsbBit (pb' !! i)) →
  groupValue pb counter = groupValue pb' counter.
Proof. intros Hbit. unfold groupValue. by rewrite !Hbit. Qed.

Lemma groups_ext pb pb' i n :
  (∀ i, lsbBit (pb !! i) = lsbBit (pb' !! i)) →
  groups pb i n = groups pb' i n.
Proof.
  intros Hbit. unfold groups. apply map_ext. intros k.
  by apply groupValue_ext.
Qed.

(** [unhide] is a function of the characters its loop decodes. *)
Lemma unhide_groups this h this' h' :
  let pb := deref h (pixelBytes (ppm this)) in
  let pb' := deref h' (pixelBytes (ppm this')) in
  length pb = length pb' →
  groups pb 0 (length pb) = groups pb' 0 (length pb') →
  unhide this h = unhide this' h'.
Proof.
  intros pb pb' Hlen Hgroups. unfold unhide. fold pb pb'.
  change (unhideLoop (length pb) pb 0 0 [] None)
    with (unhideLoop (length pb) pb 0 (8 * 0) [] None).
  change (unhideLoop (length pb') pb' 0 0 [] None)
    with (unhideLoop (length pb') pb' 0 (8 * 0) [] None).
  by rewrite !unhideLoop_scan, Hgroups.
Qed.

(** Pixel bytes that are missing read like odd pixel bytes. *)
Lemma lsbBit_padded pb n i :
  lsbBit ((pb ++ replicate n 1) !! i) = lsbBit (pb !! i).
Proof.
  destruct (decide (i < length pb)%nat) as [Hin|Hout].
  - by rewrite lookup_app_l.
  - rewrite lookup_app_r, (lookup_ge_None_2 pb i) by lia.
    destruct (replicate n 1 !! (i - length pb)%nat) as [p|] eqn:Hp; [|done].
    by apply lookup_replicate in Hp as [-> _].
Qed.

Lemma writeBit_byte c p :
  0 ≤ p < 256 → 0 ≤ writeBit c p < 256 ∧ -1 ≤ writeBit c p - p ≤ 1.
Proof.
  intros Hp. pose proof (writeBit_upper_bits c p Hp) as Hup.
  rewrite !Z.shiftr_div_pow2 in Hup by lia. change (2 ^ 1) with 2 in Hup.
  revert Hup. generalize (writeBit c p). intros q Hq.
  Z.to_euclidean_division_equations. lia.
Qed.

(** No character of the framed message before its terminator is 0 modulo
    256 when none of the message is. *)
Lemma framed_nonzero msg k c :
  Forall (λ c, 0 ≤ c ∧ c mod 256 ≠ 0) msg →
  (k < length msg + 3)%nat → framed msg !! k = Some c → c mod 256 ≠ 0.
Proof.
  intros Hmsg Hk Hc. unfold framed in Hc.
  apply lookup_app_Some in Hc as [Hc|[Hge3 Hc]].
  - apply list_elem_of_lookup_2, list_elem_of_In in Hc. cbn in Hc.
    by destruct Hc as [<-|[<-|[<-|[]]]].
  - apply lookup_app_Some in Hc as [Hc|[Hge Hc]].
    + by destruct (Forall_lookup_1 _ _ _ _ Hmsg Hc).
    + cbn [length STEG_MAGIC lit] in Hge3, Hge, Hc.
      apply lookup_lt_Some in Hc. cbn in Hc. lia.
Qed.

(** What [unhide] makes of a buffer the writing loop wrote the text
    [STEG_MAGIC ++ body ++ z :: rest] into, [z] being the first character
    that is 0 modulo 256. *)
Lemma unhide_written this' h' n text pb body z rest :
  deref h' (pixelBytes (ppm this')) = (hideLoop n text 0 0 pb).2 →
  text = STEG_MAGIC ++ body ++ z :: rest →
  Forall (λ c, 0 ≤ c) text → Forall (λ c, c mod 256 ≠ 0) body →
  z mod 256 = 0 →
  (length body + 4 ≤ n)%nat → (8 * (length body + 4) ≤ length pb)%nat →
  unhide this' h' = UnhideMsg (map (λ c, c mod 256) body ++ NUL).
Proof.
  intros Hpb1 Htext Hnn Hbody Hz Hn Hcap.
  set (pb1 := (hideLoop n text 0 0 pb).2) in *.
  assert (Hlen1 : length pb1 = length pb) by apply hideLoop_length.
  assert (Hlt : (length body + 3 < length text)%nat).
  { rewrite Htext, !length_app. cbn. lia. }
  assert (Hbyte : ∀ k c, (k ≤ length body + 3)%nat → text !! k = Some c →
            payloadByte pb1 k = Some (c mod 256)).
  { intros k c Hk Hc. rewrite payloadByte_in_range by lia. f_equal.
    apply hideLoop_groupValue; [lia | lia | done |].
    by apply (Forall_lookup_1 _ _ _ _ Hnn Hc). }
  assert (Hpay : payload pb1 (length body + 3)
                 = STEG_MAGIC ++ map (λ c, c mod 256) body).
  { unfold pb1. rewrite payload_hideLoop by (done || lia).
    rewrite Htext, (assoc_L (++)).
    rewrite take_app_length' by (rewrite length_app; cbn; lia).
    by rewrite fmap_app. }
  rewrite (unhide_terminated _ _ (length body + 3)); rewrite Hpb1; fold pb1.
  - rewrite Hpay. rewrite bool_decide_eq_true_2 by done.
    by rewrite drop_app_length' by done.
  - rewrite (Hbyte _ z); [by rewrite Hz | done |]. rewrite Htext.
    rewrite lookup_app_r by (cbn; lia). rewrite lookup_app_r by (cbn; lia).
    cbn [length STEG_MAGIC lit]. by replace (_ - _ - _)%nat with 0%nat by lia.
  - intros k' Hk'.
    destruct (lookup_lt_is_Some_2 text k') as [c Hc]; [lia|].
    rewrite (Hbyte k' c ltac:(lia) Hc). intros [= Hzero]. rewrite Htext in Hc.
    apply lookup_app_Some in Hc as [Hc|[Hge3 Hc]].
    + apply list_elem_of_lookup_2, list_elem_of_In in Hc. cbn in Hc.
      revert Hzero. by destruct Hc as [<-|[<-|[<-|[]]]].
    + rewrite lookup_app_l in Hc by (cbn [length STEG_MAGIC lit] in *; lia).
      by apply (Forall_lookup_1 _ _ _ _ Hbody Hc).
Qed.

(** ** Round trips *)

(** X2. A character that is 0 modulo 256 ends the message [unhide] recovers:
    when the message is [pre ++ c :: post] with [c] the first such
    character and the buffer takes the bits up to [c], [unhide] on the
    image [hide] returned gives the characters of [pre] modulo 256 and a
    NUL, whatever [post] is. *)
Theorem unhide_hide_truncated this msg h ppmOut id' pre c post :
  let pb := deref h (pixelBytes (ppm this)) in
  (hide this msg h).1 = HidePpm ppmOut →
  msg = pre ++ c :: post →
  Forall (λ c, 0 ≤ c) msg → Forall (λ c, c mod 256 ≠ 0) pre →
  c mod 256 = 0 →
  (8 * (length pre + 4) ≤ length pb)%nat →
  unhide (mkStegModule id' ppmOut) (hide this msg h).2
  = UnhideMsg (map (λ c, c mod 256) pre ++ NUL).
Proof.
  intros pb Hok Hmsg Hnn Hpre Hc Hcap.
  destruct (hide_success _ _ _ _ Hok) as (-> & -> & _ & _). fold pb.
  apply (unhide_written _ _ (length (framed msg) + 4) (framed msg) pb
           pre c (post ++ NUL)).
  - cbn [ppm]. change (pixelBytes (Ppm_copy (ppm this) h).1) with (length h).
    by rewrite deref_alloc.
  - unfold framed. by rewrite Hmsg, <- !(assoc_L (++)).
  - by apply framed_nonneg.
  - done.
  - done.
  - rewrite length_framed, Hmsg, length_app. cbn. lia.
  - done.
Qed.

(** X3. A message [hide] accepts although the buffer cannot take its bits is
    lost: when no character of the message is 0 modulo 256, [unhide] on
    the image [hide] returned fails with STEG_BAD_MSG. *)
Theorem hide_unrecoverable this msg h ppmOut id' :
  let pb := deref h (pixelBytes (ppm this)) in
  (hide this msg h).1 = HidePpm ppmOut →
  (length pb < 8 * length (framed msg))%nat →
  Forall (λ c, 0 ≤ c ∧ c mod 256 ≠ 0) msg →
  unhideFailsWith (lit "STEG_BAD_MSG")
    (unhide (mkStegModule id' ppmOut) (hide this msg h).2).
Proof.
  intros pb Hok Hsmall Hmsg.
  destruct (hide_success _ _ _ _ Hok) as (-> & -> & _ & _). fold pb.
  rewrite unhide_unterminated; [done|]. cbn [ppm].
  change (pixelBytes (Ppm_copy (ppm this) h).1) with (length h).
  rewrite deref_alloc.
  set (pb1 := (hideLoop (length (framed msg) + 4) (framed msg) 0 0 pb).2).
  assert (Hlen1 : length pb1 = length pb) by apply hideLoop_length.
  pose proof (length_framed msg) as HL.
  unfold groups. rewrite list_elem_of_fmap. intros (k & Hk & _).
  destruct (decide (8 * k + 8 ≤ length pb1)%nat) as [Hin|Hout].
  - destruct (lookup_lt_is_Some_2 (framed msg) k) as [c Hc]; [lia|].
    apply (framed_nonzero msg k c Hmsg); [lia | done |].
    rewrite Hk. symmetry. apply hideLoop_groupValue; [lia | lia | done |].
    assert (Hnn : Forall (λ c, 0 ≤ c) (framed msg)).
    { apply framed_nonneg. eapply Forall_impl; [exact Hmsg|]. by intros ? [? _]. }
    by apply (Forall_lookup_1 _ _ _ _ Hnn Hc).
  - by apply (groupValue_past_end pb1 (8 * k)); [lia|].
Qed.

(** ** What hide does to the pixel bytes *)

(** X6. After a successful [hide] the pixel bytes are bytes again, and each
    differs from the source's by at most 1. *)
Theorem hide_keeps_bytes this msg h ppmOut :
  (hide this msg h).1 = HidePpm ppmOut →
  let pb := deref h (pixelBytes (ppm this)) in
  let pb' := deref (hide this msg h).2 (pixelBytes ppmOut) in
  Forall (λ p, 0 ≤ p < 256) pb →
  Forall (λ q, 0 ≤ q < 256) pb'
  ∧ ∀ pos p q, pb !! pos = Some p → pb' !! pos = Some q → -1 ≤ q - p ≤ 1.
Proof.
  intros Hok pb pb' Hpb.
  assert (Hpos : ∀ pos q, pb' !! pos = Some q →
            ∃ p, pb !! pos = Some p ∧ 0 ≤ q < 256 ∧ -1 ≤ q - p ≤ 1).
  { intros pos q. unfold pb'. rewrite (hide_pixel_bytes _ _ _ _ _ Hok). fold pb.
    destruct (pb !! pos) as [p|] eqn:Hp; [|by case_decide].
    pose proof (Forall_lookup_1 _ _ _ _ Hpb Hp) as Hbyte. cbv beta in Hbyte.
    case_decide; cbn; intros [= <-]; exists p.
    - split; [done|]. by apply writeBit_byte.
    - split; [done|]. lia. }
  split.
  - apply Forall_lookup. intros pos q Hq.
    by destruct (Hpos pos q Hq) as (p & _ & Hrange & _).
  - intros pos p q Hp Hq. destruct (Hpos pos q Hq) as (p' & Hp' & _ & Hd).
    by simplify_eq.
Qed.

(** ** The checks of hide on short buffers *)

(** X8. The already-hidden check of [hide] reads pixel bytes the buffer does
    not have as 1 bits: for a message that passes the capacity check,
    [hide] fails with STEG_MSG exactly when the buffer, filled up to 24
    pixel bytes with odd bytes, begins with the magic token. *)
Theorem hide_magic_check_padded this msg h :
  let pb := deref h (pixelBytes (ppm this)) in
  (length (framed msg) ≤ length pb)%nat →
  (hideFailsWith (lit "STEG_MSG") (hide this msg h).1 ↔
   payload (pb ++ replicate (24 - length pb) 1) 3 = STEG_MAGIC).
Proof.
  intros pb Hcap. rewrite hide_cases. fold pb.
  rewrite (proj2 (Nat.ltb_ge _ _) Hcap).
  assert (Hpay : payload (pb ++ replicate (24 - length pb) 1) 3 = groups pb 0 3).
  { unfold payload. rewrite omap_payloadByte_groups
      by (rewrite length_app, length_replicate; lia).
    apply groups_ext. intros i. apply lsbBit_padded. }
  rewrite Hpay. case_bool_decide; cbn [fst hideFailsWith]; split; done.
Qed.

(** ** What unhide returns *)

(** X9. [unhide] returns the message [msg] exactly when [msg] is [body]
    followed by NUL, [body] has no NUL, the payload bytes of the buffer
    begin with the magic token followed by [body], and the next payload
    byte is NUL; the buffer then holds all the pixel bytes of these
    payload bytes.  So every message [unhide] returns ends with the NUL it
    decoded. *)
Theorem unhide_msg_iff this h msg :
  let pb := deref h (pixelBytes (ppm this)) in
  unhide this h = UnhideMsg msg ↔
  ∃ body, msg = body ++ NUL ∧ (0 ∉ body)
    ∧ payload pb (length body + 3) = STEG_MAGIC ++ body
    ∧ payloadByte pb (length body + 3) = Some 0
    ∧ (8 * (length msg + 3) ≤ length pb)%nat.
Proof.
  intros pb. split.
  - intros Hun.
    destruct (decide (0 ∈ groups pb 0 (length pb))) as [Hin|Hno];
      [|by rewrite (unhide_unterminated this h Hno) in Hun].
    apply elem_of_groups_0, first_nul in Hin as (k & Hk & Hfirst).
    rewrite (unhide_terminated this h k Hk Hfirst) in Hun. fold pb in Hun.
    case_bool_decide as Hmagic; [|done]. injection Hun as <-.
    apply payloadByte_Some in Hk as Hk'. destruct Hk' as [Hle _].
    assert (Hpay : payload pb k = groups pb 0 k)
      by (apply omap_payloadByte_groups; lia).
    assert (Hlen : length (payload pb k) = k)
      by (rewrite Hpay; unfold groups; by rewrite length_map, length_seq).
    assert (Hsplit : payload pb k = STEG_MAGIC ++ drop 3 (payload pb k)).
    { unfold startsWith in Hmagic. change (length STEG_MAGIC) with 3%nat in Hmagic.
      rewrite <- (take_drop 3 (payload pb k)) at 1. by rewrite Hmagic. }
    assert (H3 : (3 ≤ k)%nat).
    { apply (f_equal length) in Hsplit. rewrite length_app in Hsplit.
      cbn in Hsplit. lia. }
    exists (drop 3 (payload pb k)). rewrite length_drop, Hlen.
    replace (k - 3 + 3)%nat with k by lia.
    split; [done|]. split; [|split; [done|split; [done|]]].
    + intros Hz. apply list_elem_of_lookup in Hz as [i Hi].
      rewrite lookup_drop, Hpay in Hi. unfold groups in Hi.
      apply list_lookup_fmap_Some in Hi as (k' & Hval & Hk').
      apply lookup_seq in Hk' as [-> Hlt].
      apply (Hfirst (0 + (3 + i))%nat); [lia|].
      apply payloadByte_Some. split; [lia | done].
    + rewrite length_app, length_drop, Hlen. cbn. lia.
  - intros (body & -> & Hbody & Hpay & Hk & _).
    apply payloadByte_Some in Hk as Hk'. destruct Hk' as [Hle _].
    assert (Hgroups : payload pb (length body + 3) = groups pb 0 (length body + 3))
      by (apply omap_payloadByte_groups; lia).
    rewrite (unhide_terminated this h (length body + 3) Hk); fold pb.
    + rewrite Hpay. rewrite bool_decide_eq_true_2
        by (unfold startsWith; by rewrite take_app_length).
      by rewrite drop_app_length' by done.
    + intros k' Hk' [_ Hzero]%payloadByte_Some.
      assert (Hin : 0 ∈ STEG_MAGIC ++ body).
      { rewrite <- Hpay, Hgroups. unfold groups. apply list_elem_of_fmap.
        exists k'. split; [done | apply elem_of_seq; lia]. }
      apply elem_of_app in Hin as [Hin|Hin]; [|done].
      apply list_elem_of_In in Hin. cbn in Hin. by destruct Hin as [?|[?|[?|[]]]].
Qed.

(** X10. [unhide] looks at the least-significant bits only: on two buffers of
    the same length whose pixel bytes agree in parity it returns the
    same. *)
Theorem unhide_lsb_only this h this' h' :
  let pb := deref h (pixelBytes (ppm this)) in
  let pb' := deref h' (pixelBytes (ppm this')) in
  Forall2 (λ p q, Z.odd p = Z.odd q) pb pb' →
  unhide this h = unhide this' h'.
Proof.
  intros pb pb' Hpar. pose proof (Forall2_length _ _ _ Hpar) as Hlen.
  apply unhide_groups; [done|]. fold pb pb'. rewrite <- Hlen.
  apply groups_ext. intros i.
  destruct (pb !! i) as [p|] eqn:Hp.
  - destruct (Forall2_lookup_l _ _ _ _ _ Hpar Hp) as (q & -> & Hpq).
    rewrite !lsbBit_Some. unfold lsb. by rewrite Hpq.
  - apply lookup_ge_None in Hp. by rewrite (lookup_ge_None_2 pb' i) by lia.
Qed.

(** ** The conversions through text *)

(** X11. One round of the reading loops, through binary text, [parseInt],
    hexadecimal text, [parseInt] again and [fromCharCode], gives the
    one-character string of the payload byte, a byte, and moves the
    counter on by eight. *)
Theorem readChar_payloadByte pb k v :
  payloadByte pb k = Some v →
  readChar pb (8 * k) = ((8 * k + 8)%nat, [v]) ∧ 0 ≤ v < 256.
Proof.
  intros [Hle <-]%payloadByte_Some. split; [apply readChar_groupValue|].
  unfold groupValue.
  pose proof (lsbBit_cases (pb !! (8 * k)%nat)).
  pose proof (lsbBit_cases (pb !! (8 * k + 1)%nat)).
  pose proof (lsbBit_cases (pb !! (8 * k + 2)%nat)).
  pose proof (lsbBit_cases (pb !! (8 * k + 3)%nat)).
  pose proof (lsbBit_cases (pb !! (8 * k + 4)%nat)).
  pose proof (lsbBit_cases (pb !! (8 * k + 5)%nat)).
  pose proof (lsbBit_cases (pb !! (8 * k + 6)%nat)).
  pose proof (lsbBit_cases (pb !! (8 * k + 7)%nat)).
  lia.
Qed.

(** X12. The text the writing loop makes of character [i]: for a character of
    the message, the eight binary digits of its code modulo 256, so of a
    character above 255 only the low byte; past the end of the message,
    ["00000NaN"]. *)
Theorem binOfCh_text msg i :
  (∀ c, msg !! i = Some c → 0 ≤ c →
     binOfCh msg i = bits8 c ∧ binOfCh msg i = bits8 (c mod 256))
  ∧ ((length msg ≤ i)%nat → binOfCh msg i = lit "00000NaN").
Proof.
  split; [|apply binOfCh_past_end].
  intros c Hc Hpos. rewrite (binOfCh_code _ _ _ Hc), binOfCode_bits8 by done.
  split; [done|]. unfold bits8. cbn [map].
  change 256 with (2 ^ 8). by rewrite !Z.mod_pow2_bits_low by lia.
Qed.

(** ** The further properties at concrete images *)

Lemma unhide_hide_witness :
  unhide (mkStegModule 2 (mkPpm (lit "P6") [] (8, 8) 255 1))
    (hide plainModule (lit "hi" ++ [8364]) (plainStore 0)).2
  = UnhideMsg (map (λ c, c mod 256) (lit "hi" ++ [8364]) ++ NUL).
Proof.
  apply (unhide_hide plainModule (lit "hi" ++ [8364]) (plainStore 0) _ 2).
  - vm_compute. reflexivity.
  - vm_compute. lia.
  - repeat (apply Forall_cons_2; [split; [lia | by vm_compute]|]).
    apply Forall_nil_2.
Defined.

Lemma unhide_hide_truncated_witness :
  unhide (mkStegModule 2 (mkPpm (lit "P6") [] (8, 8) 255 1))
    (hide plainModule [104; 256; 105] (plainStore 0)).2
  = UnhideMsg (map (λ c, c mod 256) [104] ++ NUL).
Proof.
  apply (unhide_hide_truncated plainModule [104; 256; 105] (plainStore 0)
           _ 2 [104] 256 [105]).
  - vm_compute. reflexivity.
  - reflexivity.
  - repeat (apply Forall_cons_2; [lia|]). apply Forall_nil_2.
  - apply Forall_cons_2; [by vm_compute | apply Forall_nil_2].
  - reflexivity.
  - vm_compute. lia.
Defined.

Lemma hide_unrecoverable_witness :
  unhideFailsWith (lit "STEG_BAD_MSG")
    (unhide (mkStegModule 2 (mkPpm (lit "P6") [] (3, 1) 255 1))
       (hide tinyModule [] tinyStore).2).
Proof.
  apply (hide_unrecoverable tinyModule [] tinyStore _ 2).
  - vm_compute. reflexivity.
  - vm_compute. lia.
  - apply Forall_nil_2.
Defined.

Lemma hide_prefix_written_witness :
  length (deref (hide plainModule (lit "hi") (plainStore 0)).2 1)
  = length (deref (plainStore 0) (pixelBytes (ppm plainModule))).
Proof.
  refine (proj1 (hide_prefix_written plainModule (lit "hi") (plainStore 0)
                   (mkPpm (lit "P6") [] (8, 8) 255 1) _ _ _)).
  - vm_compute. reflexivity.
  - change (deref (plainStore 0) (pixelBytes (ppm plainModule)))
      with (replicate 192 0).
    apply Forall_replicate. lia.
  - repeat (apply Forall_cons_2; [lia|]). apply Forall_nil_2.
Defined.

Lemma hide_extra_rounds_witness :
  lsbBit (deref (hide plainModule [] (plainStore 255)).2 1 !! (8 * 4 + 0)%nat) = 0.
Proof.
  apply (hide_extra_rounds plainModule [] (plainStore 255)
           (mkPpm (lit "P6") [] (8, 8) 255 1) 4 0).
  - vm_compute. reflexivity.
  - vm_compute. lia.
  - lia.
  - vm_compute. lia.
Defined.

Lemma hide_keeps_bytes_witness :
  Forall (λ q, 0 ≤ q < 256) (deref (hide plainModule (lit "hi") (plainStore 255)).2 1).
Proof.
  refine (proj1 (hide_keeps_bytes plainModule (lit "hi") (plainStore 255)
                   (mkPpm (lit "P6") [] (8, 8) 255 1) _ _)).
  - vm_compute. reflexivity.
  - change (deref (plainStore 255) (pixelBytes (ppm plainModule)))
      with (replicate 192 255).
    apply Forall_replicate. lia.
Defined.

Lemma hide_magic_check_padded_witness :
  hideFailsWith (lit "STEG_MSG") (hide shortModule [] shortStore).1.
Proof.
  apply (hide_magic_check_padded shortModule [] shortStore).
  - vm_compute. lia.
  - vm_compute. reflexivity.
Defined.

Lemma unhide_msg_iff_witness :
  ∃ body, lit "hi" ++ NUL = body ++ NUL ∧ (0 ∉ body)
    ∧ payload (deref (hide plainModule (lit "hi") (plainStore 0)).2 1)
        (length body + 3) = STEG_MAGIC ++ body
    ∧ payloadByte (deref (hide plainModule (lit "hi") (plainStore 0)).2 1)
        (length body + 3) = Some 0
    ∧ (8 * (length (lit "hi" ++ NUL) + 3)
       ≤ length (deref (hide plainModule (lit "hi") (plainStore 0)).2 1))%nat.
Proof.
  apply (unhide_msg_iff (mkStegModule 2 (mkPpm (lit "P6") [] (8, 8) 255 1))
           (hide plainModule (lit "hi") (plainStore 0)).2 (lit "hi" ++ NUL)).
  vm_compute. reflexivity.
Defined.

Lemma unhide_lsb_only_witness :
  unhide plainModule (plainStore 0) = unhide plainModule (plainStore 254).
Proof.
  apply (unhide_lsb_only plainModule (plainStore 0) plainModule (plainStore 254)).
  change (Forall2 (λ p q, Z.odd p = Z.odd q) (replicate 192 0) (replicate 192 254)).
  by apply Forall2_replicate.
Defined.

Lemma readChar_payloadByte_witness :
  readChar [1; 0; 1; 0; 1; 0; 1; 0] (8 * 0) = ((8 * 0 + 8)%nat, [170])
  ∧ 0 ≤ 170 < 256.
Proof. apply (readChar_payloadByte [1; 0; 1; 0; 1; 0; 1; 0] 0 170). reflexivity. Defined.
